(** * Option pricing and the damped Newton solver of [Bachelier Model 1.ipynb]

    A shallow embedding of the notebook's functions [call_price],
    [put_price], [call_objective_function], [put_objective_function],
    [bachelier] and [newtons_method], and the properties of them that the
    design document states.

    Numbers.  The notebook computes with Python numbers and NumPy
    [float64] values.  The functions are embedded once, over an interface
    [Arith] of the arithmetic they use, and read at two instances:
    - [binary64], the kernel's IEEE 754 binary64 numbers, which is the
      arithmetic the notebook runs on (with its infinities and NaN);
    - [real], exact real arithmetic, in which the closed-form prices are
      compared with the formulas of the design document.
    The transcendental functions and SciPy's [norm.cdf] / [norm.pdf] form
    a second interface, [Special].

    Values.  A Python value in the numeric code is a Python number
    ([PyNum]), a NumPy scalar ([NpNum]) or a one-dimensional [ndarray]
    ([NdArray]); operators follow Python's dispatch and NumPy's
    broadcasting, and raise what Python raises.  NumPy is read at the 1.x
    behaviour the notebook needs ([np.Inf] exists, [np.where] accepts a
    scalar condition). *)

From Stdlib Require Import Floats.
From Stdlib Require Import ZArith Reals Lra Lia.
From stdpp Require Import base list.

(** ** Arithmetic interfaces *)

(** The arithmetic the notebook's code uses: the literals [0], [1], [2]
    and [0.5], the four operations, unary minus, absolute value, the
    comparisons [<=] and [==], and [np.maximum]. *)
Class Arith (F : Type) : Type := {
  f0 : F;
  f1 : F;
  f2 : F;
  fhalf : F;
  fadd : F -> F -> F;
  fsub : F -> F -> F;
  fmul : F -> F -> F;
  fdiv : F -> F -> F;
  fneg : F -> F;
  fabs : F -> F;
  fleb : F -> F -> bool;
  feqb : F -> F -> bool;
  fmax : F -> F -> F
}.

(** [np.sqrt], [np.exp], [np.log] and SciPy's standard normal
    distribution function and density. *)
Class Special (F : Type) : Type := {
  fsqrt : F -> F;
  fexp : F -> F;
  flog : F -> F;
  norm_cdf : F -> F;
  norm_pdf : F -> F
}.

(** [a >= b] is [b <= a], also on NaN (both are false). *)
Definition fgeb {F : Type} {arith : Arith F} (a b : F) : bool := fleb b a.

(** IEEE 754 binary64.  [np.maximum] propagates NaN. *)
Definition float_max (a b : float) : float :=
  if PrimFloat.is_nan a then a
  else if PrimFloat.is_nan b then b
  else if PrimFloat.ltb a b then b else a.

#[export] Instance binary64 : Arith float := {|
  f0 := 0%float;
  f1 := 1%float;
  f2 := 2%float;
  fhalf := 0.5%float;
  fadd := PrimFloat.add;
  fsub := PrimFloat.sub;
  fmul := PrimFloat.mul;
  fdiv := PrimFloat.div;
  fneg := PrimFloat.opp;
  fabs := PrimFloat.abs;
  fleb := PrimFloat.leb;
  feqb := PrimFloat.eqb;
  fmax := float_max
|}.

(** Exact real arithmetic.  The type of real numbers is written [real]
    here: [R] is the solver's estimate, as in the notebook. *)
Abbreviation real := Rdefinitions.R.

Definition Rleb (x y : real) : bool := if Rle_dec x y then true else false.
Definition Reqb (x y : real) : bool := if Req_dec_T x y then true else false.

#[export] Instance real_arith : Arith real := {|
  f0 := 0%R;
  f1 := 1%R;
  f2 := 2%R;
  fhalf := (1 / 2)%R;
  fadd := Rplus;
  fsub := Rminus;
  fmul := Rmult;
  fdiv := Rdiv;
  fneg := Ropp;
  fabs := Rabs;
  fleb := Rleb;
  feqb := Reqb;
  fmax := Rmax
|}.

(** Real special functions, for a given distribution function [Phi] and
    density [phi] of the standard normal law. *)
Definition real_special (Phi phi : real -> real) : Special real :=
  Build_Special real R_sqrt.sqrt Rtrigo_def.exp ln Phi phi.

(** ** Exceptions and results *)

Inductive exn : Type :=
  | TypeError
  | IndexError
  | ValueError
  | ZeroDivisionError
  | UnboundLocalError.

Inductive result (A : Type) : Type :=
  | Ok (a : A)
  | Raise (e : exn).
Arguments Ok {A} a.
Arguments Raise {A} e.

#[export] Instance result_ret : MRet result := fun A a => Ok a.
#[export] Instance result_fmap : FMap result := fun A B g m =>
  match m with
  | Ok a => Ok (g a)
  | Raise e => Raise e
  end.
#[export] Instance result_bind : MBind result := fun A B k m =>
  match m with
  | Ok a => k a
  | Raise e => Raise e
  end.

(** ** Values, operators and NumPy functions *)

Section Values.
Context {F : Type} {arith : Arith F}.

Inductive value : Type :=
  | PyNum (x : F)
  | NpNum (x : F)
  | NdArray (xs : list F).

(** NumPy's broadcasting of two one-dimensional arrays: equal lengths
    pair up, a length of one stretches, anything else is a [ValueError]. *)
Definition broadcast (op : F -> F -> F) (xs ys : list F) : result (list F) :=
  if Nat.eqb (length xs) (length ys) then Ok (zip_with op xs ys)
  else match xs, ys with
       | [x], _ => Ok (map (op x) ys)
       | _, [y] => Ok (map (fun x => op x y) xs)
       | _, _ => Raise ValueError
       end.

(** A Python operator [a op b] ([+], [-], [*]): two Python numbers give a
    Python number, a NumPy scalar makes the result one, an array makes it
    an array. *)
Definition py_binop (op : F -> F -> F) (a b : value) : result value :=
  match a, b with
  | PyNum x, PyNum y => Ok (PyNum (op x y))
  | PyNum x, NpNum y | NpNum x, PyNum y | NpNum x, NpNum y =>
      Ok (NpNum (op x y))
  | PyNum x, NdArray ys | NpNum x, NdArray ys => Ok (NdArray (map (op x) ys))
  | NdArray xs, PyNum y | NdArray xs, NpNum y =>
      Ok (NdArray (map (fun x => op x y) xs))
  | NdArray xs, NdArray ys => NdArray <$> broadcast op xs ys
  end.

Definition py_add : value -> value -> result value := py_binop fadd.
Definition py_sub : value -> value -> result value := py_binop fsub.
Definition py_mul : value -> value -> result value := py_binop fmul.

(** [a / b]: between two Python numbers a zero divisor raises; NumPy
    divides as the arithmetic does. *)
Definition py_div (a b : value) : result value :=
  match a, b with
  | PyNum x, PyNum y =>
      if feqb y f0 then Raise ZeroDivisionError else Ok (PyNum (fdiv x y))
  | _, _ => py_binop fdiv a b
  end.

(** A unary Python operator or method keeps the kind of its operand. *)
Definition py_unop (g : F -> F) (a : value) : value :=
  match a with
  | PyNum x => PyNum (g x)
  | NpNum x => NpNum (g x)
  | NdArray xs => NdArray (map g xs)
  end.

(** [-a] *)
Definition py_neg : value -> value := py_unop fneg.

(** [a ** 2].  (Python raises [OverflowError] when the power of a Python
    float overflows; the interface [Arith] has no notion of range.) *)
Definition py_sq : value -> value := py_unop (fun x => fmul x x).

(** A NumPy universal function of one argument ([np.sqrt], [np.exp],
    [np.log], [np.abs], and SciPy's [norm.cdf] and [norm.pdf]): a scalar
    of either kind gives a NumPy scalar. *)
Definition np_unop (g : F -> F) (a : value) : value :=
  match a with
  | PyNum x | NpNum x => NpNum (g x)
  | NdArray xs => NdArray (map g xs)
  end.

(** A NumPy universal function of two arguments ([np.multiply],
    [np.divide]). *)
Definition np_binop (op : F -> F -> F) (a b : value) : result value :=
  match a, b with
  | PyNum x, PyNum y | PyNum x, NpNum y | NpNum x, PyNum y | NpNum x, NpNum y =>
      Ok (NpNum (op x y))
  | _, _ => py_binop op a b
  end.

Definition np_multiply : value -> value -> result value := np_binop fmul.
Definition np_divide : value -> value -> result value := np_binop fdiv.
Definition np_abs : value -> value := np_unop fabs.

(** The number a scalar holds. *)
Definition number (v : value) : option F :=
  match v with
  | PyNum x | NpNum x => Some x
  | NdArray _ => None
  end.

(** [np.isscalar] *)
Definition np_isscalar (a : value) : bool :=
  match a with
  | PyNum _ | NpNum _ => true
  | NdArray _ => false
  end.

(** The indices [i >= start] of the elements of [xs] that are [<= 0]. *)
Fixpoint nonpositive_from (start : nat) (xs : list F) : list nat :=
  match xs with
  | [] => []
  | x :: xs' =>
      if fleb x f0 then start :: nonpositive_from (S start) xs'
      else nonpositive_from (S start) xs'
  end.

(** [np.where(a <= 0)[0]]: on a scalar the condition is one boolean, and
    [np.where] answers index 0 when it is true. *)
Definition where_le0 (a : value) : list nat :=
  match a with
  | PyNum x | NpNum x => if fleb x f0 then [0%nat] else []
  | NdArray xs => nonpositive_from 0 xs
  end.

(** The elements of [xs] at the positions where [ds] is [<= 0]. *)
Fixpoint nonpositive_select (ds xs : list F) : list F :=
  match ds, xs with
  | d :: ds', x :: xs' =>
      if fleb d f0 then x :: nonpositive_select ds' xs'
      else nonpositive_select ds' xs'
  | _, _ => []
  end.

(** On one element: the raw Newton step [-fv / dv + x], the damped value
    [y * 0.5 + y], and the step with the damping where [dv <= 0]. *)
Definition raw_step (x fv dv : F) : F := fadd (fdiv (fneg fv) dv) x.
Definition damped (y : F) : F := fadd (fmul y fhalf) y.
Definition newton_step (x fv dv : F) : F :=
  if fleb dv f0 then damped (raw_step x fv dv) else raw_step x fv dv.

(** The elements of [xs] at the indices [ind]; an index past the end is
    an [IndexError]. *)
Fixpoint take_at (xs : list F) (ind : list nat) : result (list F) :=
  match ind with
  | [] => Ok []
  | i :: ind' =>
      match xs !! i with
      | Some x => cons x <$> take_at xs ind'
      | None => Raise IndexError
      end
  end.

(** [a[ind]] for an index array [ind]: a Python number is not
    subscriptable, a NumPy scalar refuses the index, an array answers the
    selected elements. *)
Definition getitem (a : value) (ind : list nat) : result value :=
  match a with
  | PyNum _ => Raise TypeError
  | NpNum _ => Raise IndexError
  | NdArray xs => NdArray <$> take_at xs ind
  end.

(** [xs[ind] = vs], element by element, in the order of [ind]. *)
Fixpoint put_at (xs : list F) (ind : list nat) (vs : list F) : list F :=
  match ind, vs with
  | i :: ind', v :: vs' => put_at (<[i := v]> xs) ind' vs'
  | _, _ => xs
  end.

(** [a[ind] = b] where [b] was computed from [a[ind]]: the same failures
    as [getitem] on a scalar; an array value must have one element per
    index (or one element in all). *)
Definition setitem (a : value) (ind : list nat) (b : value) : result value :=
  match a with
  | PyNum _ => Raise TypeError
  | NpNum _ => Raise IndexError
  | NdArray xs =>
      match b with
      | PyNum v | NpNum v => Ok (NdArray (put_at xs ind (replicate (length ind) v)))
      | NdArray vs =>
          if Nat.eqb (length vs) (length ind) then Ok (NdArray (put_at xs ind vs))
          else match vs with
               | [v] => Ok (NdArray (put_at xs ind (replicate (length ind) v)))
               | _ => Raise ValueError
               end
      end
  end.

(** [abs(x).max()] of a vector with first element [x] and rest [xs]. *)
Definition max_abs (x : F) (xs : list F) : F :=
  foldl fmax (fabs x) (map fabs xs).

(** [np.linalg.norm(a, np.Inf)]: the largest absolute value of a vector;
    an empty vector has no maximum, and a scalar has no axis to take the
    norm along. *)
Definition linalg_norm_inf (a : value) : result value :=
  match a with
  | PyNum _ | NpNum _ => Raise ValueError
  | NdArray [] => Raise ValueError
  | NdArray (x :: xs) => Ok (NpNum (max_abs x xs))
  end.

(** [a >= tol] used as a loop condition: a scalar compares; an array
    answers element-wise, and its truth value is that of its one
    element, false when it has none, and a [ValueError] otherwise. *)
Definition ge_tol (a : value) (tol : F) : result bool :=
  match a with
  | PyNum x | NpNum x => Ok (fgeb x tol)
  | NdArray [] => Ok false
  | NdArray [x] => Ok (fgeb x tol)
  | NdArray _ => Raise ValueError
  end.

End Values.

Arguments value F : clear implicits.

(** ** The pricing functions *)

Section Pricing.
Context {F : Type} {arith : Arith F} {special : Special F}.

Definition np_sqrt : value F -> value F := np_unop fsqrt.
Definition np_exp : value F -> value F := np_unop fexp.
Definition np_log : value F -> value F := np_unop flog.
Definition norm_cdf_ : value F -> value F := np_unop norm_cdf.
Definition norm_pdf_ : value F -> value F := np_unop norm_pdf.

(** [d1 = np.multiply(1. / sigma * np.divide(1., np.sqrt(t)),
                      np.log(S/K) + (r + sigma**2 / 2.) * t)] *)
Definition d1_of (sigma S K r t : value F) : result (value F) :=
  a ← py_div (PyNum f1) sigma;
  b ← np_divide (PyNum f1) (np_sqrt t);
  c ← py_mul a b;
  sk ← py_div S K;
  s2 ← py_div (py_sq sigma) (PyNum f2);
  e ← py_add r s2;
  g ← py_mul e t;
  h ← py_add (np_log sk) g;
  np_multiply c h.

(** [d2 = d1 - sigma * np.sqrt(t)] *)
Definition d2_of (d1 sigma t : value F) : result (value F) :=
  m ← py_mul sigma (np_sqrt t);
  py_sub d1 m.

(** [np.multiply(norm.cdf(d) * K, np.exp(-r * t))] *)
Definition discounted_strike_term (d K r t : value F) : result (value F) :=
  y ← py_mul (norm_cdf_ d) K;
  rt ← py_mul (py_neg r) t;
  np_multiply y (np_exp rt).

(** [call_price(sigma, S, K, r, t)] returns the tuple [(C, d1, d2)]. *)
Definition call_price (sigma S K r t : value F)
  : result (value F * value F * value F) :=
  d1 ← d1_of sigma S K r t;
  d2 ← d2_of d1 sigma t;
  x ← np_multiply S (norm_cdf_ d1);
  y ← discounted_strike_term d2 K r t;
  C ← py_sub x y;
  Ok (C, d1, d2).

(** [put_price(sigma, S, K, r, t)] returns [P] alone. *)
Definition put_price (sigma S K r t : value F) : result (value F) :=
  d1 ← d1_of sigma S K r t;
  d2 ← d2_of d1 sigma t;
  x ← np_multiply S (norm_cdf_ (py_neg d1));
  y ← discounted_strike_term (py_neg d2) K r t;
  py_add (py_neg x) y.

(** [args[i]] *)
Definition arg (args : list (value F)) (i : nat) : result (value F) :=
  match args !! i with
  | Some v => Ok v
  | None => Raise IndexError
  end.

(** What an objective function hands back: a scalar or vector, or, when
    NumPy turned a tuple of arrays into one array, the rows of that
    array. *)
Inductive residual : Type :=
  | Plain (v : value F)
  | Stacked (rows : list (value F)).

Definition all_scalars (tup : list (value F)) : option (list F) :=
  mapM (fun v => match v with
                 | PyNum x | NpNum x => Some x
                 | NdArray _ => None
                 end) tup.

Definition all_arrays_of_one_length (tup : list (value F)) : bool :=
  match tup with
  | NdArray xs :: rest =>
      forallb (fun v => match v with
                        | NdArray ys => Nat.eqb (length ys) (length xs)
                        | _ => false
                        end) rest
  | _ => false
  end.

Fixpoint sub_rows (rows : list (value F)) (b : value F)
  : result (list (value F)) :=
  match rows with
  | [] => Ok []
  | row :: rows' =>
      r ← py_sub row b;
      rs ← sub_rows rows' b;
      Ok (r :: rs)
  end.

(** [(C, d1, d2) - b], a tuple on the left of [-].  A tuple has no
    subtraction, so Python asks the right operand: a Python number
    declines ([TypeError]); a NumPy scalar or array first turns the tuple
    into an array (of the three scalars, or with the three arrays as its
    rows) and subtracts from that. *)
Definition tuple_sub (tup : value F * value F * value F) (b : value F)
  : result residual :=
  match b with
  | PyNum _ => Raise TypeError
  | _ =>
      let '(C, d1, d2) := tup in
      match all_scalars [C; d1; d2] with
      | Some xs => Plain <$> py_sub (NdArray xs) b
      | None =>
          if all_arrays_of_one_length [C; d1; d2]
          then Stacked <$> sub_rows [C; d1; d2] b
          else Raise ValueError
      end
  end.

(** [call_objective_function(sigma, args)] *)
Definition call_objective_function (sigma : value F) (args : list (value F))
  : result residual :=
  S ← arg args 0;
  K ← arg args 1;
  r ← arg args 2;
  t ← arg args 3;
  price ← arg args 4;
  tup ← call_price sigma S K r t;
  tuple_sub tup price.

(** [put_objective_function(sigma, args)] *)
Definition put_objective_function (sigma : value F) (args : list (value F))
  : result (value F) :=
  S ← arg args 0;
  K ← arg args 1;
  r ← arg args 2;
  t ← arg args 3;
  price ← arg args 4;
  P ← put_price sigma S K r t;
  py_sub P price.

(** [np.sqrt(sigma**2/(2 * r) * (np.exp(2*r*t)-1))] *)
Definition bachelier_sd (sigma r t : value F) : result (value F) :=
  r2 ← py_mul (PyNum f2) r;
  q ← py_div (py_sq sigma) r2;
  r2' ← py_mul (PyNum f2) r;
  r2t ← py_mul r2' t;
  g ← py_sub (np_exp r2t) (PyNum f1);
  v2 ← py_mul q g;
  Ok (np_sqrt v2).

(** [S * np.exp(r*t) - K] *)
Definition forward_minus_strike (S K r t : value F) : result (value F) :=
  rt ← py_mul r t;
  fwd ← py_mul S (np_exp rt);
  py_sub fwd K.

(** [bachelier(sigma, S, K, r, t)] *)
Definition bachelier (sigma S K r t : value F) : result (value F) :=
  m ← forward_minus_strike S K r t;
  v ← bachelier_sd sigma r t;
  d ← py_div m v;
  nrt ← py_mul (py_neg r) t;
  m' ← forward_minus_strike S K r t;
  a ← py_mul (np_exp nrt) m';
  a' ← py_mul a (norm_cdf_ d);
  nrt' ← py_mul (py_neg r) t;
  v' ← bachelier_sd sigma r t;
  b ← py_mul (np_exp nrt') v';
  b' ← py_mul b (norm_pdf_ d);
  py_add a' b'.

(** [call_ba_objective_function(sigma, args)] *)
Definition call_ba_objective_function (sigma : value F) (args : list (value F))
  : result (value F) :=
  S ← arg args 0;
  K ← arg args 1;
  r ← arg args 2;
  t ← arg args 3;
  price ← arg args 4;
  C ← bachelier sigma S K r t;
  py_sub C price.

(** The arithmetic these functions perform on scalar arguments,
    operation by operation as the expressions above are written. *)
Definition d1_scalar (sigma S K r t : F) : F :=
  fmul (fmul (fdiv f1 sigma) (fdiv f1 (fsqrt t)))
       (fadd (flog (fdiv S K)) (fmul (fadd r (fdiv (fmul sigma sigma) f2)) t)).

Definition d2_scalar (sigma S K r t : F) : F :=
  fsub (d1_scalar sigma S K r t) (fmul sigma (fsqrt t)).

Definition call_scalar (sigma S K r t : F) : F :=
  fsub (fmul S (norm_cdf (d1_scalar sigma S K r t)))
       (fmul (fmul (norm_cdf (d2_scalar sigma S K r t)) K)
             (fexp (fmul (fneg r) t))).

Definition put_scalar (sigma S K r t : F) : F :=
  fadd (fneg (fmul S (norm_cdf (fneg (d1_scalar sigma S K r t)))))
       (fmul (fmul (norm_cdf (fneg (d2_scalar sigma S K r t))) K)
             (fexp (fmul (fneg r) t))).

Definition sd_scalar (sigma r t : F) : F :=
  fsqrt (fmul (fdiv (fmul sigma sigma) (fmul f2 r))
              (fsub (fexp (fmul (fmul f2 r) t)) f1)).

Definition d_scalar (sigma S K r t : F) : F :=
  fdiv (fsub (fmul S (fexp (fmul r t))) K) (sd_scalar sigma r t).

Definition bachelier_scalar (sigma S K r t : F) : F :=
  fadd (fmul (fmul (fexp (fmul (fneg r) t))
                   (fsub (fmul S (fexp (fmul r t))) K))
             (norm_cdf (d_scalar sigma S K r t)))
       (fmul (fmul (fexp (fmul (fneg r) t)) (sd_scalar sigma r t))
             (norm_pdf (d_scalar sigma S K r t))).

End Pricing.

(** ** The sensitivities *)

(** The literal [1e-6], the step of the finite difference. *)
Class Step (F : Type) : Type := { f_1e_6 : F }.

#[export] Instance binary64_step : Step float :=
  {| f_1e_6 := 0x1.0c6f7a0b5ed8dp-20%float |}.
#[export] Instance real_step : Step real := {| f_1e_6 := (/ 1000000)%R |}.

Section Sensitivities.
Context {F : Type} {arith : Arith F} {special : Special F} {step : Step F}.

(** [calculate_vega(sigma, args)]: it reads four arguments, computes
    [d1] and [d2] as [call_price] does, and returns
    [S * norm.pdf(d1) * np.sqrt(t)]. *)
Definition calculate_vega (sigma : value F) (args : list (value F))
  : result (value F) :=
  S ← arg args 0;
  K ← arg args 1;
  r ← arg args 2;
  t ← arg args 3;
  d1 ← d1_of sigma S K r t;
  d2 ← d2_of d1 sigma t;
  a ← py_mul S (norm_pdf_ d1);
  py_mul a (np_sqrt t).

(** [calculate_vega_ba(sigma, args)]: the forward difference of
    [bachelier] in [sigma] with the step [epsilon = 1e-6]. *)
Definition calculate_vega_ba (sigma : value F) (args : list (value F))
  : result (value F) :=
  S ← arg args 0;
  K ← arg args 1;
  r ← arg args 2;
  t ← arg args 3;
  let epsilon := PyNum f_1e_6 in
  C1 ← bachelier sigma S K r t;
  sigma' ← py_add sigma epsilon;
  C2 ← bachelier sigma' S K r t;
  d ← py_sub C2 C1;
  py_div d epsilon.

(** [S * norm.pdf(d1) * np.sqrt(t)] on scalars. *)
Definition vega_scalar (sigma S K r t : F) : F :=
  fmul (fmul S (norm_pdf (d1_scalar sigma S K r t))) (fsqrt t).

(** [(C2 - C1) / epsilon] on scalars. *)
Definition vega_ba_scalar (sigma S K r t : F) : F :=
  fdiv (fsub (bachelier_scalar (fadd sigma f_1e_6) S K r t)
             (bachelier_scalar sigma S K r t))
       f_1e_6.

End Sensitivities.

(** ** The solver *)

Section Solver.
Context {F : Type} {arith : Arith F} {A : Type}.

(** The local variables of [newtons_method] that live across iterations.
    [function_value] and [function_derivative] are unbound until the loop
    body has run once. *)
Record locals : Type := Locals {
  R : value F;
  count : Z;
  epsilon : value F;
  f_return : list (value F);
  fprime_return : list (value F);
  function_value : option (value F);
  function_derivative : option (value F)
}.

(** What [newtons_method] returns: the pair [(R, count)] of the runaway
    exit (taken after printing ['Exiting on runaway loop.']), or the
    seven-tuple at the end of the function. *)
Inductive returned : Type :=
  | Aborted (R : value F) (count : Z)
  | Converged (R : value F) (count : Z) (epsilon : value F)
              (function_value function_derivative : value F)
              (f_return fprime_return : list (value F)).

(** The number of items of the returned tuple. *)
Definition tuple_length (o : returned) : nat :=
  match o with
  | Aborted _ _ => 2
  | Converged _ _ _ _ _ _ _ => 7
  end.

Variables f fprime : value F -> A -> result (value F).
Variable max_iter : Z.
Variable tol : F.
Variable args : A.
Variable debug : bool.

(** [count = 0; epsilon = 1; f_return = []; fprime_return = []] *)
Definition initial (R0 : value F) : locals :=
  {| R := R0; count := 0; epsilon := PyNum f1;
     f_return := []; fprime_return := [];
     function_value := None; function_derivative := None |}.

(** [R[ind] = R[ind] * 0.5 + R[ind]] *)
Definition damp (R1 : value F) (ind : list nat) : result (value F) :=
  x ← getitem R1 ind;
  y ← py_mul x (PyNum fhalf);
  x' ← getitem R1 ind;
  z ← py_add y x';
  setitem R1 ind z.

(** [np.abs((R - old_R) / old_R)] for a scalar [R],
    [np.linalg.norm(R - old_R, np.Inf)] otherwise. *)
Definition convergence_metric (R2 old_R : value F) : result (value F) :=
  if np_isscalar R2 then
    d ← py_sub R2 old_R;
    q ← py_div d old_R;
    Ok (np_abs q)
  else
    d ← py_sub R2 old_R;
    linalg_norm_inf d.

(** The loop body from [old_R = R] on; [count] has been incremented. *)
Definition iteration (st : locals) : result locals :=
  let old_R := R st in
  fv ← f (R st) args;
  dv ← fprime (R st) args;
  let ind := where_le0 dv in
  q ← py_div (py_neg fv) dv;
  R1 ← py_add q (R st);
  R2 ← (if (0 <? length ind)%nat then damp R1 ind else Ok R1);
  eps ← convergence_metric R2 old_R;
  Ok {| R := R2; count := count st; epsilon := eps;
        f_return := if debug then f_return st ++ [fv] else f_return st;
        fprime_return :=
          if debug then fprime_return st ++ [dv] else fprime_return st;
        function_value := Some fv; function_derivative := Some dv |}.

(** [count += 1] *)
Definition increment (st : locals) : locals :=
  {| R := R st; count := count st + 1; epsilon := epsilon st;
     f_return := f_return st; fprime_return := fprime_return st;
     function_value := function_value st;
     function_derivative := function_derivative st |}.

(** The [return] after the loop; reading an unbound local raises. *)
Definition final_return (st : locals) : result returned :=
  match function_value st, function_derivative st with
  | Some fv, Some dv =>
      Ok (Converged (R st) (count st) (epsilon st) fv dv
                    (f_return st) (fprime_return st))
  | _, _ => Raise UnboundLocalError
  end.

(** [while epsilon >= tol: ...], with [fuel] passes through the loop
    head at most; [None] when the fuel runs out. *)
Fixpoint while_loop (fuel : nat) (st : locals) : option (result returned) :=
  match fuel with
  | O => None
  | S fuel' =>
      match ge_tol (epsilon st) tol with
      | Raise e => Some (Raise e)
      | Ok false => Some (final_return st)
      | Ok true =>
          let st1 := increment st in
          if (count st1 >=? max_iter)%Z
          then Some (Ok (Aborted (R st1) (count st1)))
          else match iteration st1 with
               | Raise e => Some (Raise e)
               | Ok st2 => while_loop fuel' st2
               end
      end
  end.

(** [newtons_method(f, fprime, R, max_iter, tol, args, debug)].  The
    counter grows by one per pass and stops the loop at [max_iter], so
    [max_iter] passes and one more are fuel enough
    (see [newtons_method_returns]). *)
Definition newtons_method (R0 : value F) : option (result returned) :=
  while_loop (S (Z.to_nat max_iter)) (initial R0).

(** One full pass of the loop body, and [k] of them in a row. *)
Definition pass (st : locals) : result locals := iteration (increment st).

Fixpoint passes (k : nat) (st : locals) : result locals :=
  match k with
  | O => Ok st
  | S k' => st' ← passes k' st; pass st'
  end.

(** The loop condition holds in the state reached after each of the
    first [n] numbers of passes [0, ..., n-1]. *)
Definition keeps_iterating (n : nat) (R0 : value F) : Prop :=
  forall k, (k < n)%nat ->
    exists st, passes k (initial R0) = Ok st /\
               ge_tol (epsilon st) tol = Ok true.

(** What a local holds after pass [j] (counted from 1) of a solve from
    [R0], and the sequence of these over the first [k] passes. *)
Definition observed (g : locals -> option (value F)) (R0 : value F) (j : nat)
  : option (value F) :=
  match passes j (initial R0) with
  | Ok s => g s
  | Raise _ => None
  end.

Definition observations (g : locals -> option (value F)) (R0 : value F)
  (k : nat) : list (value F) :=
  omap (observed g R0) (seq 1 k).

End Solver.

Arguments locals F : clear implicits.
Arguments returned F : clear implicits.
Arguments residual F : clear implicits.

(** ** The pricing functions by model and side *)

Inductive model : Type := LogNormal | Arithmetic.
Inductive side : Type := Call | Put.

Section Engine.
Context {F : Type} {arith : Arith F} {special : Special F}.

(** A price as a function of [(sigma, S, K, r, t)]. *)
Definition pricer : Type :=
  value F -> value F -> value F -> value F -> value F -> result (value F).

(** The notebook's function that prices a side under a model: the first
    item of [call_price]'s tuple, [put_price], and [bachelier] for the
    arithmetic call.  The notebook defines no put price for the
    arithmetic model. *)
Definition pricing_function (m : model) (s : side) : option pricer :=
  match m, s with
  | LogNormal, Call =>
      Some (fun sigma S K r t => (fun tup => tup.1.1) <$> call_price sigma S K r t)
  | LogNormal, Put => Some put_price
  | Arithmetic, Call => Some bachelier
  | Arithmetic, Put => None
  end.

End Engine.

Arguments pricer F : clear implicits.

(** ** The formulas of the design document, over the reals *)

Section Formulas.
Open Scope R_scope.
Variables Phi phi : real -> real.

Definition spec_d1 (sigma S K r t : real) : real :=
  (ln (S / K) + (r + sigma ^ 2 / 2) * t) / (sigma * R_sqrt.sqrt t).

Definition spec_d2 (sigma S K r t : real) : real :=
  spec_d1 sigma S K r t - sigma * R_sqrt.sqrt t.

Definition spec_call (sigma S K r t : real) : real :=
  S * Phi (spec_d1 sigma S K r t)
  - K * Rtrigo_def.exp (- (r * t)) * Phi (spec_d2 sigma S K r t).

Definition spec_put (sigma S K r t : real) : real :=
  K * Rtrigo_def.exp (- (r * t)) * Phi (- spec_d2 sigma S K r t)
  - S * Phi (- spec_d1 sigma S K r t).

Definition spec_v (sigma r t : real) : real :=
  R_sqrt.sqrt (sigma ^ 2 / (2 * r) * (Rtrigo_def.exp (2 * r * t) - 1)).

Definition spec_d (sigma S K r t : real) : real :=
  (S * Rtrigo_def.exp (r * t) - K) / spec_v sigma r t.

Definition spec_arithmetic_call (sigma S K r t : real) : real :=
  Rtrigo_def.exp (- (r * t))
  * ((S * Rtrigo_def.exp (r * t) - K) * Phi (spec_d sigma S K r t)
     + spec_v sigma r t * phi (spec_d sigma S K r t)).

(** Put-call parity for a model, as the design document states it: the
    model has a call and a put price, and on valid scalar inputs the put
    obtained from the call through [C - P = S - K e^(-rt)] is the put the
    model's put function computes. *)
Definition put_call_parity (m : model) : Prop :=
  exists call put : pricer real,
    pricing_function (special := real_special Phi phi) m Call = Some call /\
    pricing_function (special := real_special Phi phi) m Put = Some put /\
    forall (vsigma vS vK vr vt : value real) (sigma S K r t : real),
      number vsigma = Some sigma -> number vS = Some S ->
      number vK = Some K -> number vr = Some r -> number vt = Some t ->
      0 < sigma -> 0 < t -> 0 < S -> 0 < K ->
      exists C P : real,
        call vsigma vS vK vr vt = Ok (NpNum C) /\
        put vsigma vS vK vr vt = Ok (NpNum P) /\
        P = C - (S - K * Rtrigo_def.exp (- (r * t))).

End Formulas.

(** A distribution function that is symmetric about zero, as the
    standard normal one is, and its density (those of the Cauchy law). *)
Definition symmetric_cdf (x : real) : real := (1 / 2 + atan x / PI)%R.
Definition symmetric_pdf (x : real) : real := (/ (PI * (1 + x ^ 2)))%R.

(** ** The standard normal law *)

(** The density [exp(-x^2/2) / sqrt(2 pi)] that [norm.pdf] computes, and
    the distribution function [norm.cdf] as its integral from 0, which
    starts from one half. *)
Definition normal_pdf (x : real) : real :=
  (/ R_sqrt.sqrt (2 * PI) * Rtrigo_def.exp (- (x * x) / 2))%R.

Definition normal_integrable (x : real) : Riemann_integrable normal_pdf 0 x.
Proof.
  assert (Hc : continuity normal_pdf) by (unfold normal_pdf; reg).
  destruct (Rle_dec 0 x) as [Hle|Hgt].
  - apply continuity_implies_RiemannInt; [exact Hle|].
    intros y _. apply Hc.
  - apply RiemannInt_P1. apply continuity_implies_RiemannInt; [lra|].
    intros y _. apply Hc.
Defined.

Definition normal_cdf (x : real) : real :=
  (1 / 2 + RiemannInt (normal_integrable x))%R.

(** ** Reading a price *)

(** [C, d1, d2 = call_price(...)], keeping [C]. *)
Definition call_value {F : Type}
  (p : result (value F * value F * value F)) : result (value F) :=
  '(C, _, _) ← p; Ok C.

(** The real number that a price holds (zero when there is none). *)
Definition price_number (p : result (value real)) : real :=
  match p with
  | Ok v => default 0%R (number v)
  | Raise _ => 0%R
  end.

(** ** Example objectives (binary64), with [args = []] *)

(** [f(R) = R * R - 2] and [f'(R) = 2 * R]. *)
Definition parabola (R0 : value float) (_ : list (value float))
  : result (value float) :=
  r2 ← py_mul R0 R0; py_sub r2 (PyNum 2%float).
Definition parabola_slope (R0 : value float) (_ : list (value float))
  : result (value float) :=
  py_mul (PyNum 2%float) R0.

(** [f(R) = 2 - np.multiply(R, R)] and [f'(R) = np.multiply(-2, R)]: a
    residual that falls as [R] grows. *)
Definition falling (R0 : value float) (_ : list (value float))
  : result (value float) :=
  r2 ← np_multiply R0 R0; py_sub (PyNum 2%float) r2.
Definition falling_slope (R0 : value float) (_ : list (value float))
  : result (value float) :=
  np_multiply (PyNum (-2)%float) R0.

(** [f(R) = np.multiply(R, 1.)], with the constant slopes
    [np.float64(1.)] and [np.float64(0.5)]. *)
Definition np_identity (R0 : value float) (_ : list (value float))
  : result (value float) :=
  np_multiply R0 (PyNum 1%float).
Definition slope_one (R0 : value float) (_ : list (value float))
  : result (value float) :=
  Ok (NpNum 1%float).
Definition slope_half (R0 : value float) (_ : list (value float))
  : result (value float) :=
  Ok (NpNum 0.5%float).

(** [tol = 1e-3], the default. *)
Definition default_tol : float := 0x1.0624dd2f1a9fcp-10%float.

(** The exceptions that the arithmetic of the loop body raises. *)
Definition body_error (e : exn) : Prop :=
  e = TypeError \/ e = IndexError \/ e = ValueError \/ e = ZeroDivisionError.

(** A function that answers every vector of length [n] by a vector of
    length [n], given the arguments [args]. *)
Definition conforming {F A : Type} (args : A) (n : nat)
  (g : value F -> A -> result (value F)) : Prop :=
  forall xs, length xs = n ->
    exists ys, g (NdArray xs) args = Ok (NdArray ys) /\ length ys = n.

(** * Properties *)

(** ** The result monad *)

Lemma bind_Ok {A B : Type} (m : result A) (k : A -> result B) (b : B) :
  m ≫= k = Ok b -> exists a, m = Ok a /\ k a = Ok b.
Proof. destruct m as [a|e]; simpl; [eauto | discriminate]. Qed.

Lemma fmap_Ok {A B : Type} (g : A -> B) (m : result A) (b : B) :
  g <$> m = Ok b -> exists a, m = Ok a /\ b = g a.
Proof. destruct m as [a|e]; simpl; [|discriminate]. intros [= <-]. eauto. Qed.

(** Splits a hypothesis [x ← m; k = Ok b] into its steps. *)
Ltac unbind H :=
  repeat (let a := fresh "a" in
          let E := fresh "E" in
          apply bind_Ok in H; destruct H as (a & E & H)).

(** ** The loop of [newtons_method] *)

Section SolverFacts.
Context {F : Type} {arith : Arith F} {A : Type}.
Variables f fprime : value F -> A -> result (value F).
Variable max_iter : Z.
Variable tol : F.
Variable args : A.
Variable debug : bool.


(** What one run of the loop body leaves in the locals. *)
Lemma iteration_locals st st' :
  iteration f fprime args debug st = Ok st' ->
  exists fv dv,
    f (R st) args = Ok fv /\ fprime (R st) args = Ok dv /\
    count st' = count st /\
    function_value st' = Some fv /\ function_derivative st' = Some dv /\
    f_return st' = (if debug then f_return st ++ [fv] else f_return st) /\
    fprime_return st' =
      (if debug then fprime_return st ++ [dv] else fprime_return st) /\
    convergence_metric (R st') (R st) = Ok (epsilon st') /\
    exists q R1,
      py_div (py_neg fv) dv = Ok q /\ py_add q (R st) = Ok R1 /\
      (if (0 <? length (where_le0 dv))%nat then damp R1 (where_le0 dv)
       else Ok R1) = Ok (R st').
Proof.
  unfold iteration. intros Hit. unbind Hit.
  injection Hit as <-. simpl. eauto 15.
Qed.

Lemma pass_locals st st' :
  pass f fprime args debug st = Ok st' ->
  exists fv dv,
    f (R st) args = Ok fv /\ fprime (R st) args = Ok dv /\
    count st' = (count st + 1)%Z /\
    function_value st' = Some fv /\ function_derivative st' = Some dv /\
    f_return st' = (if debug then f_return st ++ [fv] else f_return st) /\
    fprime_return st' =
      (if debug then fprime_return st ++ [dv] else fprime_return st) /\
    convergence_metric (R st') (R st) = Ok (epsilon st').
Proof.
  intros Hp. apply iteration_locals in Hp.
  destruct Hp as (fv & dv & ? & ? & ? & ? & ? & ? & ? & ? & _). eauto 10.
Qed.

Lemma passes_S k st0 st :
  passes f fprime args debug (S k) st0 = Ok st <->
  exists s, passes f fprime args debug k st0 = Ok s /\ pass f fprime args debug s = Ok st.
Proof.
  simpl. split.
  - intros Hk. apply bind_Ok in Hk. exact Hk.
  - intros (s & -> & Hp). exact Hp.
Qed.

Lemma passes_count k st0 st :
  passes f fprime args debug k st0 = Ok st -> count st = (count st0 + Z.of_nat k)%Z.
Proof.
  revert st. induction k as [|k IH]; intros st.
  - simpl. intros [= <-]. lia.
  - rewrite passes_S. intros (s & Hs & Hp).
    apply pass_locals in Hp as (fv & dv & _ & _ & Hc & _).
    rewrite Hc, (IH s Hs). lia.
Qed.

(** The locals [function_value] and [function_derivative] are bound as
    soon as one pass has completed. *)
Lemma passes_bound k st0 st :
  passes f fprime args debug (S k) st0 = Ok st ->
  exists fv dv, function_value st = Some fv /\ function_derivative st = Some dv.
Proof.
  rewrite passes_S. intros (s & _ & Hp).
  apply pass_locals in Hp as (fv & dv & _ & _ & _ & Hfv & Hdv & _). eauto.
Qed.

(** The loop never runs out of fuel once it has as much as there are
    passes left before the cap. *)
Lemma while_loop_returns fuel st :
  (1 <= fuel)%nat -> (max_iter - count st <= Z.of_nat fuel)%Z ->
  exists o, while_loop f fprime max_iter tol args debug fuel st = Some o.
Proof.
  revert st. induction fuel as [|fuel IH]; intros st Hpos Hfuel; [lia|].
  simpl. destruct (ge_tol (epsilon st) tol) as [[|]|e]; eauto.
  destruct (Z.geb_spec (count st + 1) max_iter) as [Hge|Hlt]; eauto.
  destruct (iteration _ _ _ _ _) as [st2|e] eqn:Hit; eauto.
  apply iteration_locals in Hit as (_ & _ & _ & _ & Hc & _). simpl in Hc.
  apply IH; lia.
Qed.

(** The loop unrolled: while the loop condition holds and the cap is not
    reached, [k] passes through the loop are [k] passes of the body. *)
Lemma while_loop_unroll k fuel st0 st :
  passes f fprime args debug k st0 = Ok st ->
  (forall j, (j < k)%nat ->
     exists s, passes f fprime args debug j st0 = Ok s /\
               ge_tol (epsilon s) tol = Ok true) ->
  ((0 < k)%nat -> (count st0 + Z.of_nat k < max_iter)%Z) ->
  while_loop f fprime max_iter tol args debug (k + fuel) st0
  = while_loop f fprime max_iter tol args debug fuel st.
Proof.
  revert fuel st. induction k as [|k IH]; intros fuel st Hk Hcond Hcap.
  - simpl in Hk. injection Hk as ->. reflexivity.
  - apply passes_S in Hk as (s & Hs & Hp).
    specialize (Hcap ltac:(lia)).
    replace (S k + fuel)%nat with (k + S fuel)%nat by lia.
    rewrite (IH (S fuel) s Hs); [| intros j Hj; apply Hcond; lia | lia].
    destruct (Hcond k ltac:(lia)) as (s' & Hs' & Hge).
    rewrite Hs in Hs'. injection Hs' as <-.
    simpl. rewrite Hge.
    pose proof (passes_count _ _ _ Hs) as Hc.
    destruct (Z.geb_spec (count s + 1) max_iter) as [Hge'|_]; [lia|].
    unfold pass in Hp. rewrite Hp. reflexivity.
Qed.


(** The trace lists hold what was observed, pass after pass, when
    [debug] is set, and stay empty otherwise. *)
Lemma passes_trace k R0 st :
  passes f fprime args debug k (initial R0) = Ok st ->
  f_return st =
    (if debug then observations f fprime args debug function_value R0 k else []) /\
  fprime_return st =
    (if debug then observations f fprime args debug function_derivative R0 k else []).
Proof.
  revert st. induction k as [|k IH]; intros st.
  - simpl. intros [= <-]. simpl. destruct debug; auto.
  - intros Hk. pose proof Hk as Hk'. apply passes_S in Hk' as (s & Hs & Hp).
    destruct (IH s Hs) as [IHf IHd].
    apply pass_locals in Hp as (fv & dv & _ & _ & _ & Hfv & Hdv & Hfr & Hdr & _).
    rewrite Hfr, Hdr, IHf, IHd. destruct debug; auto.
    unfold observations. rewrite seq_S, !omap_app.
    change (1 + k)%nat with (S k). cbn [omap list_omap].
    assert (Hobs : forall g, observed f fprime args true g R0 (S k) = g st)
      by (intros g; unfold observed; rewrite Hk; reflexivity).
    rewrite !Hobs, Hfv, Hdv. auto.
Qed.

Lemma passes_trace_length k st0 st :
  passes f fprime args debug k st0 = Ok st -> debug = true ->
  length (f_return st) = (length (f_return st0) + k)%nat /\
  length (fprime_return st) = (length (fprime_return st0) + k)%nat.
Proof.
  intros Hk Hdebug. revert st Hk. induction k as [|k IH]; intros st.
  - simpl. intros [= <-]. lia.
  - rewrite passes_S. intros (s & Hs & Hp). destruct (IH s Hs) as [IHf IHd].
    apply pass_locals in Hp as (fv & dv & _ & _ & _ & _ & _ & Hfr & Hdr & _).
    rewrite Hfr, Hdr, Hdebug, !length_app. simpl. lia.
Qed.

(** Every normal return of the loop, traced back to the passes made. *)
Lemma while_loop_outcome fuel k R0 st o :
  passes f fprime args debug k (initial R0) = Ok st ->
  k = 0%nat \/ (Z.of_nat k < max_iter)%Z ->
  while_loop f fprime max_iter tol args debug fuel st = Some (Ok o) ->
  exists k' st',
    passes f fprime args debug k' (initial R0) = Ok st' /\
    match o with
    | Converged R' c e fv dv fs fps =>
        (1 <= k')%nat /\ c = Z.of_nat k' /\ R' = R st' /\ e = epsilon st' /\
        function_value st' = Some fv /\ function_derivative st' = Some dv /\
        fs = f_return st' /\ fps = fprime_return st' /\
        ge_tol e tol = Ok false
    | Aborted R' c =>
        c = (Z.of_nat k' + 1)%Z /\ R' = R st' /\ c = Z.max 1 max_iter
    end.
Proof.
  revert k st. induction fuel as [|fuel IH]; intros k st Hk Hcap; [discriminate|].
  pose proof (passes_count _ _ _ Hk) as Hc. simpl in Hc.
  simpl. destruct (ge_tol (epsilon st) tol) as [[|]|e] eqn:Hge; [| |discriminate].
  - destruct (Z.geb_spec (count st + 1) max_iter) as [Hcnt|Hcnt].
    + intros [= <-]. exists k, st. split; [exact Hk|]. simpl.
      repeat split; lia.
    + destruct (iteration _ _ _ _ _) as [st2|e] eqn:Hit; [|discriminate].
      apply (IH (S k) st2); [|lia].
      apply passes_S. exists st. split; [exact Hk | exact Hit].
  - unfold final_return.
    destruct (function_value st) as [fv|] eqn:Hfv; [|discriminate].
    destruct (function_derivative st) as [dv|] eqn:Hdv; [|discriminate].
    intros [= <-]. exists k, st. split; [exact Hk|].
    destruct k as [|k]; [simpl in Hk; injection Hk as <-; discriminate|].
    repeat split; auto; lia.
Qed.

(** A solve always returns or raises: the fuel of [newtons_method] never
    runs out. *)
Lemma newtons_method_returns R0 :
  exists o, newtons_method f fprime max_iter tol args debug R0 = Some o.
Proof. apply while_loop_returns; simpl; lia. Qed.

(** A converged return carries a count no smaller than the count the loop
    was entered with. *)
Lemma while_loop_count fuel st R' c e fv dv fs fps :
  while_loop f fprime max_iter tol args debug fuel st
  = Some (Ok (Converged R' c e fv dv fs fps)) ->
  (count st <= c)%Z.
Proof.
  revert st. induction fuel as [|fuel IH]; intros st; [discriminate|].
  simpl. destruct (ge_tol (epsilon st) tol) as [[|]|e']; [| |discriminate].
  - destruct (Z.geb_spec (count st + 1) max_iter); [discriminate|].
    destruct (iteration _ _ _ _ _) as [st2|e'] eqn:Hit; [|discriminate].
    intros Hloop. apply IH in Hloop.
    apply iteration_locals in Hit as (_ & _ & _ & _ & Hc & _).
    simpl in Hc. lia.
  - unfold final_return.
    destruct (function_value st); [|discriminate].
    destruct (function_derivative st); [|discriminate].
    intros [= _ <- _ _ _ _ _]. lia.
Qed.

(** *** Shapes *)

Lemma py_binop_array_r op (a : value F) ys v :
  py_binop op a (NdArray ys) = Ok v -> np_isscalar v = false.
Proof.
  destruct a as [x|x|xs]; simpl.
  - intros [= <-]. reflexivity.
  - intros [= <-]. reflexivity.
  - intros Hb. apply fmap_Ok in Hb as (zs & _ & ->). reflexivity.
Qed.

Lemma setitem_array (a : value F) ind b v :
  setitem a ind b = Ok v -> np_isscalar a = false /\ np_isscalar v = false.
Proof.
  destruct a as [x|x|xs]; simpl; [discriminate..|].
  destruct b as [y|y|ys]; [intros [= <-]; auto..|].
  destruct (Nat.eqb _ _); [intros [= <-]; auto|].
  destruct ys as [|y [|y' ys]]; [discriminate| |discriminate].
  intros [= <-]; auto.
Qed.

Lemma damp_array (R1 : value F) ind v :
  damp R1 ind = Ok v -> np_isscalar R1 = false /\ np_isscalar v = false.
Proof.
  unfold damp. intros Hd. unbind Hd. apply setitem_array in Hd. exact Hd.
Qed.

(** A scalar estimate after the loop body was a scalar before it. *)
Lemma iteration_scalar st st' :
  iteration f fprime args debug st = Ok st' ->
  np_isscalar (R st') = true -> np_isscalar (R st) = true.
Proof.
  intros Hit Hs'.
  apply iteration_locals in Hit
    as (fv & dv & _ & _ & _ & _ & _ & _ & _ & _ & q & R1 & _ & Hadd & Hdamp).
  destruct (R st) as [x|x|xs] eqn:HR; [reflexivity..|].
  apply py_binop_array_r in Hadd.
  destruct (0 <? length (where_le0 dv))%nat.
  - apply damp_array in Hdamp as [_ Hv]. congruence.
  - injection Hdamp as Heq. congruence.
Qed.

(** *** The convergence metric and the loop condition *)

Lemma convergence_metric_scalar (R2 old_R eps : value F) x' :
  convergence_metric R2 old_R = Ok eps ->
  number R2 = Some x' -> np_isscalar old_R = true ->
  exists x, number old_R = Some x /\
            eps = NpNum (fabs (fdiv (fsub x' x) x)).
Proof.
  unfold convergence_metric.
  destruct R2 as [y|y|ys]; simpl; [| |discriminate];
    destruct old_R as [x|x|xs]; simpl; try discriminate;
    intros Hm [= <-] _; exists x; (split; [reflexivity|]);
    try (injection Hm as <-; reflexivity).
  destruct (feqb x f0); [discriminate|]. injection Hm as <-. reflexivity.
Qed.

Lemma convergence_metric_vector (eps : value F) xs' xs :
  convergence_metric (NdArray xs') (NdArray xs) = Ok eps ->
  length xs' = length xs ->
  exists y ys, zip_with fsub xs' xs = y :: ys /\ eps = NpNum (max_abs y ys).
Proof.
  unfold convergence_metric. simpl. unfold broadcast.
  intros Hm Hlen. rewrite Hlen, Nat.eqb_refl in Hm. simpl in Hm.
  destruct (zip_with fsub xs' xs) as [|y ys]; [discriminate|].
  injection Hm as <-. eauto.
Qed.

Lemma convergence_metric_number (R2 old_R eps : value F) :
  convergence_metric R2 old_R = Ok eps ->
  (np_isscalar R2 = true -> np_isscalar old_R = true) ->
  exists e, eps = NpNum e.
Proof.
  unfold convergence_metric. intros Hm Hshape.
  destruct (np_isscalar R2) eqn:HR2.
  - specialize (Hshape eq_refl).
    destruct R2 as [y|y|ys]; [| |discriminate];
      destruct old_R as [x|x|xs]; try discriminate; simpl in Hm;
      try (injection Hm as <-; eauto).
    destruct (feqb x f0); [discriminate|]. injection Hm as <-. eauto.
  - unbind Hm. destruct a as [y|y|[|y ys]]; try discriminate.
    injection Hm as <-. eauto.
Qed.

(** The metric of a scalar estimate after a run of the loop body. *)
Lemma iteration_metric_scalar st st' x' :
  iteration f fprime args debug st = Ok st' ->
  number (R st') = Some x' ->
  exists x, number (R st) = Some x /\
            epsilon st' = NpNum (fabs (fdiv (fsub x' x) x)).
Proof.
  intros Hit Hx'. pose proof (iteration_scalar _ _ Hit) as Hshape.
  apply iteration_locals in Hit
    as (fv & dv & _ & _ & _ & _ & _ & _ & _ & Hm & _).
  eapply convergence_metric_scalar; eauto.
  apply Hshape. destruct (R st'); simpl in *; congruence.
Qed.

(** The metric of a vector estimate after a run of the loop body. *)
Lemma iteration_metric_vector st st' xs' xs :
  iteration f fprime args debug st = Ok st' ->
  R st' = NdArray xs' -> R st = NdArray xs -> length xs' = length xs ->
  exists y ys, zip_with fsub xs' xs = y :: ys /\
               epsilon st' = NpNum (max_abs y ys).
Proof.
  intros Hit HR' HR Hlen.
  apply iteration_locals in Hit
    as (fv & dv & _ & _ & _ & _ & _ & _ & _ & Hm & _).
  rewrite HR', HR in Hm. eapply convergence_metric_vector; eauto.
Qed.

(** After a run of the loop body, the loop condition decides alone
    whether the solver returns the converged tuple of that state. *)
Lemma iteration_stopping st st' fuel :
  iteration f fprime args debug st = Ok st' ->
  exists e, epsilon st' = NpNum e /\
    ((exists fv dv,
        while_loop f fprime max_iter tol args debug (S fuel) st' =
        Some (Ok (Converged (R st') (count st') (NpNum e) fv dv
                            (f_return st') (fprime_return st'))))
     <-> fgeb e tol = false).
Proof.
  intros Hit. pose proof (iteration_scalar _ _ Hit) as Hshape.
  apply iteration_locals in Hit
    as (fv & dv & _ & _ & _ & Hfv & Hdv & _ & _ & Hm & _).
  destruct (convergence_metric_number _ _ _ Hm Hshape) as (e & He).
  exists e. split; [exact He|].
  simpl. rewrite He. simpl. unfold final_return. rewrite Hfv, Hdv.
  destruct (fgeb e tol) eqn:Hge.
  - split; [|discriminate]. intros (fv' & dv' & Hloop). exfalso.
    revert Hloop.
    destruct (Z.geb_spec (count st' + 1) max_iter); [discriminate|].
    destruct (iteration f fprime args debug (increment st'))
      as [st2|e'] eqn:Hit2; [|discriminate].
    intros Hloop. apply while_loop_count in Hloop.
    apply iteration_locals in Hit2 as (_ & _ & _ & _ & Hc & _).
    simpl in Hc. lia.
  - split; [reflexivity|]. intros _. exists fv, dv. rewrite He. reflexivity.
Qed.

(** C2 (amended).  After a run of the loop body the metric is a NumPy
    scalar [e].  For a scalar estimate [x'] obtained from [x] it is
    [|(x' - x) / x|], the relative change; for a vector estimate obtained
    from a vector of the same length it is the largest [|x'_i - x_i|].
    The solver then returns the seven-tuple of this state exactly when
    the loop condition [e >= tol] is false. *)
Theorem convergence_metric_and_stopping st st' fuel :
  iteration f fprime args debug st = Ok st' ->
  (forall x', number (R st') = Some x' ->
     exists x, number (R st) = Some x /\
               epsilon st' = NpNum (fabs (fdiv (fsub x' x) x))) /\
  (forall xs' xs, R st' = NdArray xs' -> R st = NdArray xs ->
     length xs' = length xs ->
     exists y ys, zip_with fsub xs' xs = y :: ys /\
                  epsilon st' = NpNum (max_abs y ys)) /\
  exists e, epsilon st' = NpNum e /\
    ((exists fv dv,
        while_loop f fprime max_iter tol args debug (S fuel) st' =
        Some (Ok (Converged (R st') (count st') (NpNum e) fv dv
                            (f_return st') (fprime_return st'))))
     <-> fgeb e tol = false).
Proof.
  intros Hit. split; [|split].
  - intros x' Hx'. exact (iteration_metric_scalar st st' x' Hit Hx').
  - intros xs' xs HR' HR Hlen.
    exact (iteration_metric_vector st st' xs' xs Hit HR' HR Hlen).
  - exact (iteration_stopping st st' fuel Hit).
Qed.

(** *** The runaway exit *)


(** *** The return contract *)

(** C6 (amended).  A converged return is the seven-tuple of the state
    after the last pass [k >= 1]: the estimate, [count = k], the metric,
    the residual and derivative of the last pass (taken at the estimate
    that pass started from), and the two trace lists, which hold the
    residuals and the derivatives of passes 1 to [k] in order when
    [debug] is set and are empty otherwise.  A runaway return is the pair
    of the estimate and [count = max(1, max_iter)] only. *)
Theorem newtons_method_return_contract R0 o :
  newtons_method f fprime max_iter tol args debug R0 = Some (Ok o) ->
  match o with
  | Converged R' c e fv dv fs fps =>
      exists k s st,
        passes f fprime args debug k (initial R0) = Ok s /\
        pass f fprime args debug s = Ok st /\
        c = Z.of_nat (S k) /\ R' = R st /\ e = epsilon st /\
        f (R s) args = Ok fv /\ fprime (R s) args = Ok dv /\
        fs = (if debug
              then observations f fprime args debug function_value R0 (S k)
              else []) /\
        fps = (if debug
               then observations f fprime args debug function_derivative R0 (S k)
               else []) /\
        (debug = true -> length fs = S k /\ length fps = S k) /\
        tuple_length o = 7%nat
  | Aborted R' c =>
      exists k st,
        passes f fprime args debug k (initial R0) = Ok st /\
        c = Z.of_nat (S k) /\ R' = R st /\ c = Z.max 1 max_iter /\
        tuple_length o = 2%nat
  end.
Proof.
  intros Hnm.
  apply (while_loop_outcome _ 0 R0 (initial R0)) in Hnm
    as (k & st & Hk & Ho); [|reflexivity|left; reflexivity].
  destruct o as [R' c|R' c e fv dv fs fps].
  - destruct Ho as (Hc & HR & Hmax). exists k, st.
    repeat split; auto; lia.
  - destruct Ho as (Hpos & Hc & HR & He & Hfv & Hdv & Hfs & Hfps & _).
    destruct k as [|k]; [lia|].
    pose proof Hk as Hk'. apply passes_S in Hk' as (s & Hs & Hp).
    pose proof (passes_trace _ _ _ Hk) as [Hf Hd].
    pose proof (pass_locals _ _ Hp)
      as (fv' & dv' & Hfv' & Hdv' & _ & Hfv'' & Hdv'' & _).
    exists k, s, st.
    assert (fv' = fv) as -> by congruence.
    assert (dv' = dv) as -> by congruence.
    assert (Hlen : debug = true -> length fs = S k /\ length fps = S k).
    { intros Hdebug.
      apply (passes_trace_length _ _ _ Hk) in Hdebug as [Hlf Hld].
      simpl in Hlf, Hld. split; congruence. }
    split; [exact Hs|]. split; [exact Hp|].
    repeat (split; [congruence|]). split; [exact Hlen|reflexivity].
Qed.

(** *** Damping on a scalar estimate *)

(** With a scalar estimate, residual and derivative, a derivative [<= 0]
    makes the loop body raise: [np.where] answers index 0 and the
    estimate, a scalar, cannot be indexed ([TypeError] for a Python
    number, [IndexError] for a NumPy scalar), unless the division of two
    Python numbers by zero has raised before. *)
Lemma iteration_scalar_nonpositive st fv dv d :
  np_isscalar (R st) = true ->
  f (R st) args = Ok fv -> np_isscalar fv = true ->
  fprime (R st) args = Ok dv -> number dv = Some d -> fleb d f0 = true ->
  exists e, iteration f fprime args debug st = Raise e /\
            (e = TypeError \/ e = IndexError \/ e = ZeroDivisionError) /\
            (forall x, dv = NpNum x -> e = IndexError).
Proof.
  intros HR Hf Hfv Hfp Hd Hle. unfold iteration. rewrite Hf, Hfp. simpl.
  destruct (R st) as [x|x|xs]; [| |discriminate];
    destruct fv as [y|y|ys]; try discriminate;
    destruct dv as [z|z|zs]; try discriminate;
    injection Hd as ->; simpl; rewrite ?Hle;
    try destruct (feqb d f0); simpl;
    eexists; (split; [reflexivity|]); (split; [tauto|]);
    intros ? ?; congruence.
Qed.

(** C10.  If, at some pass of a scalar solve, the residual is a scalar
    and the derivative is a scalar [<= 0], the solve ends with an
    exception: the damping step indexes the scalar estimate. *)
Theorem scalar_nonpositive_derivative_raises R0 k st fv dv d :
  passes f fprime args debug k (initial R0) = Ok st ->
  keeps_iterating f fprime tol args debug (S k) R0 ->
  (Z.of_nat k + 1 < max_iter)%Z ->
  np_isscalar (R st) = true ->
  f (R st) args = Ok fv -> np_isscalar fv = true ->
  fprime (R st) args = Ok dv -> number dv = Some d -> fleb d f0 = true ->
  exists e, newtons_method f fprime max_iter tol args debug R0 = Some (Raise e) /\
            (e = TypeError \/ e = IndexError \/ e = ZeroDivisionError) /\
            (forall x, dv = NpNum x -> e = IndexError).
Proof.
  intros Hk Hkeep Hcap HR Hf Hfv Hfp Hd Hle.
  destruct (iteration_scalar_nonpositive (increment st) fv dv d)
    as (e & Hraise & He); auto.
  exists e. split; [|exact He].
  unfold newtons_method.
  replace (S (Z.to_nat max_iter))
    with (k + S (Z.to_nat max_iter - k))%nat by lia.
  rewrite (while_loop_unroll k _ _ _ Hk).
  - destruct (Hkeep k ltac:(lia)) as (s & Hs & Hge).
    rewrite Hk in Hs. injection Hs as <-.
    pose proof (passes_count _ _ _ Hk) as Hc. simpl in Hc.
    simpl. rewrite Hge.
    destruct (Z.geb_spec (count st + 1) max_iter) as [Hge'|_]; [lia|].
    rewrite Hraise. reflexivity.
  - intros j Hj. apply Hkeep. lia.
  - simpl. lia.
Qed.

End SolverFacts.

(** ** Runs of the solver in binary64 *)

(** *** Scalar estimates and non-positive derivatives *)

(** C1 (failing input).  A scalar solve from [R = 0.5] of the falling
    residual [2 - R*R], whose slope there is [-1]: the raw Newton step is
    [0.5 - 1.75 / (-1) = 2.25], and instead of returning one and a half
    times that the first pass raises [IndexError]. *)
Theorem scalar_damping_raises :
  newtons_method falling falling_slope 1000 default_tol [] false
    (PyNum 0.5%float)
  = Some (Raise IndexError).
Proof. vm_compute. reflexivity. Qed.

(** C4 (failing inputs).  Three solves that end with an exception: a
    tolerance above the initial [epsilon = 1], for which the loop body
    never runs and the final [return] reads unbound locals; a scalar
    estimate at which the derivative is negative; an empty vector. *)
Theorem newtons_method_can_raise :
  newtons_method parabola parabola_slope 1000 2%float [] false
    (NdArray [1%float])
  = Some (Raise UnboundLocalError) /\
  newtons_method parabola parabola_slope 1000 default_tol [] false
    (NpNum (-1)%float)
  = Some (Raise IndexError) /\
  newtons_method parabola parabola_slope 1000 default_tol [] false
    (NdArray [])
  = Some (Raise ValueError).
Proof. repeat split; vm_compute; reflexivity. Qed.

(** C10 (witness): the first pass of a solve of the parabola from the
    NumPy scalar [-1], where the slope is [-2]. *)
Lemma scalar_nonpositive_derivative_raises_witness :
  exists e,
    newtons_method parabola parabola_slope 1000 default_tol [] false
      (NpNum (-1)%float)
    = Some (Raise e) /\
    (e = TypeError \/ e = IndexError \/ e = ZeroDivisionError) /\
    (forall x, NpNum (-2)%float = NpNum x -> e = IndexError).
Proof.
  apply (scalar_nonpositive_derivative_raises parabola parabola_slope 1000
           default_tol [] false (NpNum (-1)%float) 0
           (initial (NpNum (-1)%float)) (NpNum (-1)%float) (NpNum (-2)%float)
           (-2)%float).
  - reflexivity.
  - intros k Hk. exists (initial (NpNum (-1)%float)).
    destruct k as [|k]; [|lia]. split; reflexivity.
  - lia.
  - reflexivity.
  - reflexivity.
  - reflexivity.
  - reflexivity.
  - reflexivity.
  - reflexivity.
Defined.

(** *** A NaN metric ends the loop *)

(** C2 (counterexample).  The solve of [f(R) = R] with slope 1 from the
    default guess [R = 0]: the first pass leaves [R = 0] and the metric
    [|(0 - 0) / 0| = NaN]; the loop condition [NaN >= tol] is false, and
    the solver returns the converged seven-tuple although [NaN < tol] is
    false too. *)
Lemma converged_with_nan_metric :
  newtons_method np_identity slope_one 1000 default_tol [] false
    (PyNum 0%float)
  = Some (Ok (Converged (NpNum 0%float) 1 (NpNum nan)
                        (NpNum 0%float) (NpNum 1%float) [] [])) /\
  PrimFloat.ltb nan default_tol = false.
Proof. split; vm_compute; reflexivity. Qed.

(** C2 (witness): the first pass of a scalar solve of the parabola from
    [R = 1], which leaves [R = 1.5] and [epsilon = 0.5]. *)
Lemma convergence_metric_and_stopping_witness :
  exists st',
    iteration parabola parabola_slope [] false
      (increment (initial (PyNum 1%float))) = Ok st' /\
    (forall x', number (R st') = Some x' ->
       exists x, number (PyNum 1%float) = Some x /\
                 epsilon st' = NpNum (fabs (fdiv (fsub x' x) x))) /\
    exists e, epsilon st' = NpNum e /\
      ((exists fv dv,
          while_loop parabola parabola_slope 1000 default_tol [] false 1 st' =
          Some (Ok (Converged (R st') (count st') (NpNum e) fv dv
                              (f_return st') (fprime_return st'))))
       <-> fgeb e default_tol = false).
Proof.
  eexists. split; [vm_compute; reflexivity|].
  pose proof (convergence_metric_and_stopping parabola parabola_slope 1000
                default_tol [] false
                (increment (initial (PyNum 1%float))) _ 0%nat eq_refl)
    as (Hscalar & _ & Hstop).
  split; [exact Hscalar | exact Hstop].
Defined.

(** *** A pair that never converges *)





(** *** What the two exits return *)

(** C6 (counterexample).  A traced solve that ends at the cap returns the
    pair of the estimate and the count, and nothing else: no metric, no
    residual, no derivative, no trace. *)
Lemma runaway_returns_a_pair :
  newtons_method np_identity slope_half 3 default_tol [] true (NpNum 1%float)
  = Some (Ok (Aborted (NpNum 1%float) 3)) /\
  tuple_length (Aborted (NpNum 1%float) 3) = 2%nat.
Proof. split; vm_compute; reflexivity. Qed.

(** C6 (witness): the traced vector solve of [f(R) = R] with slope 1
    from [[1, 2]], which reaches [[0, 0]] in two passes. *)
Lemma newtons_method_return_contract_witness :
  exists k s st,
    passes np_identity slope_one [] true k
      (initial (NdArray [1%float; 2%float])) = Ok s /\
    pass np_identity slope_one [] true s = Ok st /\
    2%Z = Z.of_nat (S k) /\ NdArray [0%float; 0%float] = R st /\
    [NdArray [1%float; 2%float]; NdArray [0%float; 0%float]]
    = observations np_identity slope_one [] true function_value
        (NdArray [1%float; 2%float]) (S k).
Proof.
  assert (Hrun :
    newtons_method np_identity slope_one 1000 default_tol [] true
      (NdArray [1%float; 2%float])
    = Some (Ok (Converged (NdArray [0%float; 0%float]) 2 (NpNum 0%float)
                  (NdArray [0%float; 0%float]) (NpNum 1%float)
                  [NdArray [1%float; 2%float]; NdArray [0%float; 0%float]]
                  [NpNum 1%float; NpNum 1%float])))
    by (vm_compute; reflexivity).
  destruct (newtons_method_return_contract _ _ _ _ _ _ _ _ Hrun)
    as (k & s & st & Hs & Hp & Hc & HR & _ & _ & _ & Hfs & _).
  exists k, s, st. auto.
Defined.

(** ** The pricing functions on scalars *)

Section PricingFacts.
Context {F : Type} {arith : Arith F} {special : Special F}.

(** Destructs the scalar arguments of a pricing function. *)
Ltac scalar_cases :=
  repeat match goal with
         | Hn : number ?v = Some _ |- _ =>
             destruct v; simpl in Hn; [| |discriminate Hn];
             injection Hn as ->
         end.

(** On scalar arguments of either kind, with a volatility and a strike
    that are not zero, [call_price] returns three NumPy scalars. *)
Lemma call_price_scalars vsigma vS vK vr vt sigma S K r t :
  number vsigma = Some sigma -> number vS = Some S -> number vK = Some K ->
  number vr = Some r -> number vt = Some t ->
  feqb sigma f0 = false -> feqb K f0 = false -> feqb f2 f0 = false ->
  call_price vsigma vS vK vr vt
  = Ok (NpNum (call_scalar sigma S K r t),
        NpNum (d1_scalar sigma S K r t),
        NpNum (d2_scalar sigma S K r t)).
Proof.
  intros Hsigma HS HK Hr Ht Gsigma GK G2. scalar_cases.
  all: unfold call_price, d1_of, d2_of, discounted_strike_term; cbn;
    rewrite ?Gsigma, ?GK, ?G2; reflexivity.
Qed.

Lemma put_price_scalars vsigma vS vK vr vt sigma S K r t :
  number vsigma = Some sigma -> number vS = Some S -> number vK = Some K ->
  number vr = Some r -> number vt = Some t ->
  feqb sigma f0 = false -> feqb K f0 = false -> feqb f2 f0 = false ->
  put_price vsigma vS vK vr vt = Ok (NpNum (put_scalar sigma S K r t)).
Proof.
  intros Hsigma HS HK Hr Ht Gsigma GK G2. scalar_cases.
  all: unfold put_price, d1_of, d2_of, discounted_strike_term; cbn;
    rewrite ?Gsigma, ?GK, ?G2; reflexivity.
Qed.

Lemma bachelier_scalars vsigma vS vK vr vt sigma S K r t :
  number vsigma = Some sigma -> number vS = Some S -> number vK = Some K ->
  number vr = Some r -> number vt = Some t ->
  feqb (fmul f2 r) f0 = false ->
  bachelier vsigma vS vK vr vt = Ok (NpNum (bachelier_scalar sigma S K r t)).
Proof.
  intros Hsigma HS HK Hr Ht G2r. scalar_cases.
  all: unfold bachelier, forward_minus_strike, bachelier_sd; cbn;
    rewrite ?G2r; reflexivity.
Qed.

(** *** A vector of spot prices *)

Lemma zip_with_maps {X Y Z W : Type} (op : Y -> Z -> W) (g : X -> Y)
  (h : X -> Z) (l : list X) :
  zip_with op (map g l) (map h l) = map (fun x => op (g x) (h x)) l.
Proof. induction l as [|x l IH]; simpl; congruence. Qed.

Lemma zip_with_map_r {X Z W : Type} (op : X -> Z -> W) (h : X -> Z)
  (l : list X) :
  zip_with op l (map h l) = map (fun x => op x (h x)) l.
Proof. induction l as [|x l IH]; simpl; congruence. Qed.

(** With an array of spot prices and Python numbers for the rest, as in
    the notebook's comparison of the two models, [call_price] works
    element by element. *)
Lemma call_price_spots sigma Ss K r t :
  feqb sigma f0 = false -> feqb f2 f0 = false ->
  call_price (PyNum sigma) (NdArray Ss) (PyNum K) (PyNum r) (PyNum t)
  = Ok (NdArray (map (fun S => call_scalar sigma S K r t) Ss),
        NdArray (map (fun S => d1_scalar sigma S K r t) Ss),
        NdArray (map (fun S => d2_scalar sigma S K r t) Ss)).
Proof.
  intros Gsigma G2.
  unfold call_price, d1_of, d2_of, discounted_strike_term. cbn.
  rewrite Gsigma, G2. cbn.
  unfold broadcast. rewrite !length_map, Nat.eqb_refl. cbn.
  rewrite !map_map, zip_with_map_r.
  unfold broadcast. rewrite !length_map, Nat.eqb_refl. cbn.
  rewrite zip_with_maps. reflexivity.
Qed.

(** *** The objective functions *)

#[local] Arguments call_price : simpl never.
#[local] Arguments put_price : simpl never.

Lemma tuple_sub_python_number (tup : value F * value F * value F) p :
  tuple_sub tup (PyNum p) = Raise TypeError.
Proof. reflexivity. Qed.

(** C5 (failing inputs).  With the observed price given as a Python
    number, as in an argument tuple [(S, K, r, t, C0)] of Python numbers,
    [call_objective_function] returns nothing: [call_price] answers a
    tuple, and a number cannot be subtracted from a tuple. *)
Theorem call_objective_function_python_price sigma S K r t p rest v :
  call_objective_function sigma (S :: K :: r :: t :: PyNum p :: rest) <> Ok v.
Proof.
  unfold call_objective_function. cbn. intros Hv.
  apply bind_Ok in Hv as (tup & _ & Hv). discriminate Hv.
Qed.

(** With a NumPy scalar for the price and scalar arguments, it returns
    the array of the price, [d1] and [d2], each less the observed price:
    three numbers, not the residual. *)
Lemma call_objective_function_numpy_price
  vsigma vS vK vr vt sigma S K r t p rest :
  number vsigma = Some sigma -> number vS = Some S -> number vK = Some K ->
  number vr = Some r -> number vt = Some t ->
  feqb sigma f0 = false -> feqb K f0 = false -> feqb f2 f0 = false ->
  call_objective_function vsigma (vS :: vK :: vr :: vt :: NpNum p :: rest)
  = Ok (Plain (NdArray [fsub (call_scalar sigma S K r t) p;
                        fsub (d1_scalar sigma S K r t) p;
                        fsub (d2_scalar sigma S K r t) p])).
Proof.
  intros Hsigma HS HK Hr Ht Gsigma GK G2.
  unfold call_objective_function. cbn.
  rewrite (call_price_scalars _ _ _ _ _ _ _ _ _ _ Hsigma HS HK Hr Ht Gsigma GK G2).
  reflexivity.
Qed.

(** The put objective, whose price function returns the price alone,
    does return the residual. *)
Lemma put_objective_function_residual
  vsigma vS vK vr vt sigma S K r t p rest :
  number vsigma = Some sigma -> number vS = Some S -> number vK = Some K ->
  number vr = Some r -> number vt = Some t ->
  feqb sigma f0 = false -> feqb K f0 = false -> feqb f2 f0 = false ->
  put_objective_function vsigma (vS :: vK :: vr :: vt :: PyNum p :: rest)
  = Ok (NpNum (fsub (put_scalar sigma S K r t) p)).
Proof.
  intros Hsigma HS HK Hr Ht Gsigma GK G2.
  unfold put_objective_function. cbn.
  rewrite (put_price_scalars _ _ _ _ _ _ _ _ _ _ Hsigma HS HK Hr Ht Gsigma GK G2).
  reflexivity.
Qed.

End PricingFacts.

(** ** The closed-form prices in exact real arithmetic *)

Section RealPricing.
Open Scope R_scope.
Variables Phi phi : real -> real.

#[local] Hint Extern 0 (Special real) =>
  exact (real_special Phi phi) : typeclass_instances.

Lemma Reqb_false (x y : real) : x <> y -> Reqb x y = false.
Proof.
  intros Hne. unfold Reqb.
  destruct (Req_dec_T x y); [contradiction|reflexivity].
Qed.

Lemma Rleb_false (x y : real) : y < x -> Rleb x y = false.
Proof. intros Hlt. unfold Rleb. destruct (Rle_dec x y); [lra|reflexivity]. Qed.

Lemma sqrt_nonzero (t : real) : 0 < t -> R_sqrt.sqrt t <> 0.
Proof. intros Ht. pose proof (sqrt_lt_R0 t Ht). lra. Qed.

Lemma d1_scalar_real sigma S K r t :
  0 < sigma -> 0 < t -> d1_scalar sigma S K r t = spec_d1 sigma S K r t.
Proof.
  intros Hsigma Ht. pose proof (sqrt_nonzero t Ht).
  unfold d1_scalar, spec_d1. simpl. field. split; lra.
Qed.

Lemma d2_scalar_real sigma S K r t :
  0 < sigma -> 0 < t -> d2_scalar sigma S K r t = spec_d2 sigma S K r t.
Proof.
  intros Hsigma Ht. unfold d2_scalar, spec_d2.
  rewrite d1_scalar_real by assumption. reflexivity.
Qed.

Lemma call_scalar_real sigma S K r t :
  0 < sigma -> 0 < t -> call_scalar sigma S K r t = spec_call Phi sigma S K r t.
Proof.
  intros Hsigma Ht. unfold call_scalar, spec_call.
  rewrite d1_scalar_real, d2_scalar_real by assumption. simpl.
  replace (- r * t) with (- (r * t)) by ring. ring.
Qed.

Lemma put_scalar_real sigma S K r t :
  0 < sigma -> 0 < t -> put_scalar sigma S K r t = spec_put Phi sigma S K r t.
Proof.
  intros Hsigma Ht. unfold put_scalar, spec_put.
  rewrite d1_scalar_real, d2_scalar_real by assumption. simpl.
  replace (- r * t) with (- (r * t)) by ring. ring.
Qed.

Lemma sd_scalar_real sigma r t : sd_scalar sigma r t = spec_v sigma r t.
Proof.
  unfold sd_scalar, spec_v. simpl.
  replace (sigma * (sigma * 1)) with (sigma * sigma) by ring. reflexivity.
Qed.

Lemma bachelier_scalar_real sigma S K r t :
  bachelier_scalar sigma S K r t = spec_arithmetic_call Phi phi sigma S K r t.
Proof.
  unfold bachelier_scalar, spec_arithmetic_call, d_scalar, spec_d.
  rewrite sd_scalar_real. simpl.
  replace (- r * t) with (- (r * t)) by ring. ring.
Qed.

Lemma call_price_real vsigma vS vK vr vt sigma S K r t :
  number vsigma = Some sigma -> number vS = Some S -> number vK = Some K ->
  number vr = Some r -> number vt = Some t ->
  0 < sigma -> 0 < t -> 0 < K ->
  call_price vsigma vS vK vr vt
  = Ok (NpNum (spec_call Phi sigma S K r t),
        NpNum (spec_d1 sigma S K r t),
        NpNum (spec_d2 sigma S K r t)).
Proof.
  intros Hsigma HS HK Hr Ht Psigma Pt PK.
  assert (Gsigma : feqb sigma f0 = false) by (apply Reqb_false; simpl; lra).
  assert (GK : feqb K f0 = false) by (apply Reqb_false; simpl; lra).
  assert (G2 : feqb (f2 : real) f0 = false) by (apply Reqb_false; simpl; lra).
  rewrite (call_price_scalars _ _ _ _ _ _ _ _ _ _ Hsigma HS HK Hr Ht Gsigma GK G2).
  rewrite call_scalar_real, d1_scalar_real, d2_scalar_real by assumption.
  reflexivity.
Qed.

Lemma put_price_real vsigma vS vK vr vt sigma S K r t :
  number vsigma = Some sigma -> number vS = Some S -> number vK = Some K ->
  number vr = Some r -> number vt = Some t ->
  0 < sigma -> 0 < t -> 0 < K ->
  put_price vsigma vS vK vr vt = Ok (NpNum (spec_put Phi sigma S K r t)).
Proof.
  intros Hsigma HS HK Hr Ht Psigma Pt PK.
  assert (Gsigma : feqb sigma f0 = false) by (apply Reqb_false; simpl; lra).
  assert (GK : feqb K f0 = false) by (apply Reqb_false; simpl; lra).
  assert (G2 : feqb (f2 : real) f0 = false) by (apply Reqb_false; simpl; lra).
  rewrite (put_price_scalars _ _ _ _ _ _ _ _ _ _ Hsigma HS HK Hr Ht Gsigma GK G2).
  rewrite put_scalar_real by assumption. reflexivity.
Qed.

(** C7.  For [sigma > 0], [t > 0] and positive [S], [K], given as scalars
    of either kind, [call_price] returns the tuple of
    [C = S Phi(d1) - K e^(-rt) Phi(d2)], [d1] and [d2], with
    [d1 = (ln(S/K) + (r + sigma^2/2) t) / (sigma sqrt t)] and
    [d2 = d1 - sigma sqrt t], and [put_price] returns
    [P = K e^(-rt) Phi(-d2) - S Phi(-d1)]. *)
Theorem lognormal_prices vsigma vS vK vr vt sigma S K r t :
  number vsigma = Some sigma -> number vS = Some S -> number vK = Some K ->
  number vr = Some r -> number vt = Some t ->
  0 < sigma -> 0 < t -> 0 < S -> 0 < K ->
  call_price vsigma vS vK vr vt
  = Ok (NpNum (spec_call Phi sigma S K r t),
        NpNum (spec_d1 sigma S K r t),
        NpNum (spec_d2 sigma S K r t)) /\
  put_price vsigma vS vK vr vt = Ok (NpNum (spec_put Phi sigma S K r t)).
Proof.
  intros Hsigma HS HK Hr Ht Psigma Pt PS PK. split.
  - exact (call_price_real _ _ _ _ _ _ _ _ _ _ Hsigma HS HK Hr Ht Psigma Pt PK).
  - exact (put_price_real _ _ _ _ _ _ _ _ _ _ Hsigma HS HK Hr Ht Psigma Pt PK).
Qed.

(** Under the hypotheses of the arithmetic price the standard deviation
    [v], by which the code divides, is positive. *)
Lemma spec_v_positive sigma r t :
  0 < sigma -> 0 < t -> r <> 0 -> 0 < spec_v sigma r t.
Proof.
  intros Hsigma Ht Hr. unfold spec_v. apply sqrt_lt_R0.
  set (e := Rtrigo_def.exp (2 * r * t)).
  assert (Hq : 0 < (e - 1) / (2 * r)).
  { destruct (Rtotal_order r 0) as [Hneg | [Hzero | Hpos]]; [| contradiction |].
    - assert (He : e < 1).
      { unfold e. rewrite <- exp_0. apply exp_increasing. nra. }
      replace ((e - 1) / (2 * r)) with ((1 - e) / (- (2 * r))) by (field; lra).
      apply Rdiv_lt_0_compat; lra.
    - assert (He : 1 < e).
      { unfold e. rewrite <- exp_0. apply exp_increasing. nra. }
      apply Rdiv_lt_0_compat; lra. }
  replace (sigma ^ 2 / (2 * r) * (e - 1))
    with (sigma ^ 2 * ((e - 1) / (2 * r))) by (field; lra).
  apply Rmult_lt_0_compat; [nra | exact Hq].
Qed.

(** The log-normal call price over an array of spot prices, element by
    element. *)
Theorem lognormal_call_over_spots sigma Ss K r t :
  0 < sigma -> 0 < t -> 0 < K ->
  call_price (PyNum sigma) (NdArray Ss) (PyNum K) (PyNum r) (PyNum t)
  = Ok (NdArray (map (fun S => spec_call Phi sigma S K r t) Ss),
        NdArray (map (fun S => spec_d1 sigma S K r t) Ss),
        NdArray (map (fun S => spec_d2 sigma S K r t) Ss)).
Proof.
  intros Psigma Pt PK.
  assert (Gsigma : feqb sigma f0 = false) by (apply Reqb_false; simpl; lra).
  assert (G2 : feqb (f2 : real) f0 = false) by (apply Reqb_false; simpl; lra).
  rewrite (call_price_spots _ _ _ _ _ Gsigma G2).
  assert (HC : map (fun S => call_scalar sigma S K r t) Ss
               = map (fun S => spec_call Phi sigma S K r t) Ss)
    by (apply map_ext; intros S; apply call_scalar_real; assumption).
  assert (Hd1 : map (fun S => d1_scalar sigma S K r t) Ss
                = map (fun S => spec_d1 sigma S K r t) Ss)
    by (apply map_ext; intros S; apply d1_scalar_real; assumption).
  assert (Hd2 : map (fun S => d2_scalar sigma S K r t) Ss
                = map (fun S => spec_d2 sigma S K r t) Ss)
    by (apply map_ext; intros S; apply d2_scalar_real; assumption).
  rewrite HC, Hd1, Hd2. reflexivity.
Qed.

(** C8.  For [sigma > 0], [t > 0], [r <> 0] and positive [S], [K], given
    as scalars of either kind, [bachelier] returns
    [e^(-rt) ((S e^(rt) - K) Phi(d) + v phi(d))] with
    [v = sqrt(sigma^2 / (2r) (e^(2rt) - 1))], which is positive, and
    [d = (S e^(rt) - K) / v]. *)
Theorem arithmetic_call_price vsigma vS vK vr vt sigma S K r t :
  number vsigma = Some sigma -> number vS = Some S -> number vK = Some K ->
  number vr = Some r -> number vt = Some t ->
  0 < sigma -> 0 < t -> r <> 0 -> 0 < S -> 0 < K ->
  bachelier vsigma vS vK vr vt
  = Ok (NpNum (spec_arithmetic_call Phi phi sigma S K r t)) /\
  0 < spec_v sigma r t.
Proof.
  intros Hsigma HS HK Hr Ht Psigma Pt Pr PS PK.
  assert (G2r : feqb (fmul f2 r) f0 = false) by (apply Reqb_false; simpl; lra).
  rewrite (bachelier_scalars _ _ _ _ _ _ _ _ _ _ Hsigma HS HK Hr Ht G2r).
  rewrite bachelier_scalar_real.
  split; [reflexivity | apply spec_v_positive; assumption].
Qed.

(** C9 (amended).  For a distribution function with
    [Phi(-x) = 1 - Phi(x)], the log-normal call and put prices satisfy
    put-call parity on valid scalar inputs: the put obtained from the
    call through [C - P = S - K e^(-rt)] is the value of [put_price]. *)
Theorem lognormal_put_call_parity :
  (forall x, Phi (- x) = 1 - Phi x) -> put_call_parity Phi phi LogNormal.
Proof.
  intros Hsym. unfold put_call_parity. do 2 eexists.
  split; [reflexivity|]. split; [reflexivity|].
  intros vsigma vS vK vr vt sigma S K r t Hsigma HS HK Hr Ht Psigma Pt PS PK.
  pose proof (call_price_real _ _ _ _ _ _ _ _ _ _ Hsigma HS HK Hr Ht Psigma Pt PK)
    as Hcall.
  pose proof (put_price_real _ _ _ _ _ _ _ _ _ _ Hsigma HS HK Hr Ht Psigma Pt PK)
    as Hput.
  exists (spec_call Phi sigma S K r t), (spec_put Phi sigma S K r t).
  rewrite Hcall, Hput. split; [reflexivity|]. split; [reflexivity|].
  unfold spec_put, spec_call. rewrite !Hsym. ring.
Qed.

End RealPricing.

(** *** Instances *)

Lemma symmetric_cdf_opp (x : real) :
  symmetric_cdf (- x) = (1 - symmetric_cdf x)%R.
Proof.
  unfold symmetric_cdf. rewrite atan_opp.
  pose proof PI_neq0. field. assumption.
Qed.

(** C7 (witness): the notebook's at-the-money example, [sigma = 0.30],
    [S = K = 105], [r = 0.01], [t = 30/365], as Python numbers. *)
Lemma lognormal_prices_witness :
  call_price (special := real_special symmetric_cdf symmetric_pdf)
    (PyNum (3 / 10)%R) (PyNum 105%R) (PyNum 105%R) (PyNum (1 / 100)%R)
    (PyNum (30 / 365)%R)
  = Ok (NpNum (spec_call symmetric_cdf (3 / 10) 105 105 (1 / 100) (30 / 365)),
        NpNum (spec_d1 (3 / 10) 105 105 (1 / 100) (30 / 365)),
        NpNum (spec_d2 (3 / 10) 105 105 (1 / 100) (30 / 365))) /\
  put_price (special := real_special symmetric_cdf symmetric_pdf)
    (PyNum (3 / 10)%R) (PyNum 105%R) (PyNum 105%R) (PyNum (1 / 100)%R)
    (PyNum (30 / 365)%R)
  = Ok (NpNum (spec_put symmetric_cdf (3 / 10) 105 105 (1 / 100) (30 / 365))).
Proof.
  apply (lognormal_prices symmetric_cdf symmetric_pdf); try reflexivity; lra.
Defined.

(** C8 (witness): the same example with the arithmetic model's
    volatility [sigma S = 31.5]. *)
Lemma arithmetic_call_price_witness :
  bachelier (special := real_special symmetric_cdf symmetric_pdf)
    (PyNum (63 / 2)%R) (PyNum 105%R) (PyNum 105%R) (PyNum (1 / 100)%R)
    (PyNum (30 / 365)%R)
  = Ok (NpNum (spec_arithmetic_call symmetric_cdf symmetric_pdf
                 (63 / 2) 105 105 (1 / 100) (30 / 365))) /\
  (0 < spec_v (63 / 2) (1 / 100) (30 / 365))%R.
Proof.
  apply (arithmetic_call_price symmetric_cdf symmetric_pdf);
    try reflexivity; lra.
Defined.

(** The log-normal call over the spot prices 90 and 110. *)
Lemma lognormal_call_over_spots_witness :
  call_price (special := real_special symmetric_cdf symmetric_pdf)
    (PyNum (3 / 10)%R) (NdArray [90%R; 110%R]) (PyNum 105%R)
    (PyNum (1 / 100)%R) (PyNum (30 / 365)%R)
  = Ok (NdArray (map (fun S => spec_call symmetric_cdf (3 / 10) S 105
                                 (1 / 100) (30 / 365)) [90%R; 110%R]),
        NdArray (map (fun S => spec_d1 (3 / 10) S 105 (1 / 100) (30 / 365))
                   [90%R; 110%R]),
        NdArray (map (fun S => spec_d2 (3 / 10) S 105 (1 / 100) (30 / 365))
                   [90%R; 110%R])).
Proof.
  apply (lognormal_call_over_spots symmetric_cdf symmetric_pdf); lra.
Defined.

(** C9 (witness): parity of the log-normal prices for the symmetric
    distribution function above. *)
Lemma lognormal_put_call_parity_witness :
  put_call_parity symmetric_cdf symmetric_pdf LogNormal.
Proof.
  apply (lognormal_put_call_parity symmetric_cdf symmetric_pdf).
  exact symmetric_cdf_opp.
Defined.

(** C9 (counterexample).  Parity cannot be checked for the arithmetic
    model, whatever the distribution function: the notebook prices its
    call ([bachelier]) and has no function for its put. *)
Lemma arithmetic_model_has_no_put :
  ~ (exists Phi phi, put_call_parity Phi phi Arithmetic).
Proof.
  intros (Phi & phi & call & put & _ & Hput & _). discriminate Hput.
Qed.

(** ** The damping rule on vectors *)

Section VectorDamping.
Context {F : Type} {arith : Arith F} {A : Type}.
Variables f fprime : value F -> A -> result (value F).
Variable args : A.
Variable debug : bool.

Lemma take_at_nonpositive pre (ds xs : list F) :
  length ds = length xs ->
  take_at (pre ++ xs) (nonpositive_from (length pre) ds)
  = Ok (nonpositive_select ds xs).
Proof.
  revert pre xs. induction ds as [|d ds IH]; intros pre [|x xs] Hlen;
    try discriminate; [reflexivity|].
  injection Hlen as Hlen. simpl.
  specialize (IH (pre ++ [x]) xs Hlen).
  rewrite length_app, <- app_assoc in IH. simpl in IH.
  rewrite Nat.add_1_r in IH.
  destruct (fleb d f0); [|exact IH].
  simpl. rewrite list_lookup_middle by reflexivity. rewrite IH. reflexivity.
Qed.

Lemma put_at_nonpositive (g : F -> F) pre (ds xs : list F) :
  length ds = length xs ->
  put_at (pre ++ xs) (nonpositive_from (length pre) ds)
         (map g (nonpositive_select ds xs))
  = pre ++ zip_with (fun d x => if fleb d f0 then g x else x) ds xs.
Proof.
  revert pre xs. induction ds as [|d ds IH]; intros pre [|x xs] Hlen;
    try discriminate; [reflexivity|].
  injection Hlen as Hlen. simpl.
  destruct (fleb d f0).
  - simpl. rewrite (insert_app_r_alt pre (x :: xs) (length pre)) by lia.
    rewrite Nat.sub_diag. simpl.
    specialize (IH (pre ++ [g x]) xs Hlen).
    rewrite length_app, <- !app_assoc in IH. simpl in IH.
    rewrite Nat.add_1_r in IH. exact IH.
  - specialize (IH (pre ++ [x]) xs Hlen).
    rewrite length_app, <- !app_assoc in IH. simpl in IH.
    rewrite Nat.add_1_r in IH. exact IH.
Qed.

Lemma nonpositive_lengths start (ds xs : list F) :
  length ds = length xs ->
  length (nonpositive_select ds xs) = length (nonpositive_from start ds).
Proof.
  revert start xs. induction ds as [|d ds IH]; intros start [|x xs] Hlen;
    try discriminate; [reflexivity|].
  injection Hlen as Hlen. simpl. destruct (fleb d f0); simpl; auto.
Qed.

Lemma zip_with_map_self (g : F -> F) (vs : list F) :
  zip_with fadd (map g vs) vs = map (fun v => fadd (g v) v) vs.
Proof. induction vs as [|v vs IH]; simpl; congruence. Qed.

(** [R[ind] = R[ind] * 0.5 + R[ind]] with [ind = np.where(dv <= 0)[0]],
    on vectors of one length. *)
Lemma damp_vector (ds xs : list F) :
  length ds = length xs ->
  damp (NdArray xs) (where_le0 (NdArray ds))
  = Ok (NdArray (zip_with (fun d x => if fleb d f0 then damped x else x) ds xs)).
Proof.
  intros Hlen.
  pose proof (take_at_nonpositive [] ds xs Hlen) as Htake.
  pose proof (put_at_nonpositive damped [] ds xs Hlen) as Hput.
  pose proof (nonpositive_lengths 0 ds xs Hlen) as Hind.
  simpl in Htake, Hput.
  unfold damp, getitem, where_le0. rewrite Htake. cbn.
  unfold broadcast. rewrite length_map, Nat.eqb_refl. cbn.
  rewrite zip_with_map_self, length_map, Hind, Nat.eqb_refl.
  fold (damped) in Hput. unfold damped in Hput. rewrite Hput. reflexivity.
Qed.

(** The damping rule.  In a vector solve whose residual and derivative
    have the estimate's length, a run of the loop body replaces each
    element [x] by the raw Newton step [-fv/dv + x], taken one and a half
    times where the derivative is [<= 0] and as it is elsewhere.  In a
    scalar solve with a derivative that is not [<= 0], the new estimate
    is the raw Newton step. *)
Theorem damping_rule st st' :
  iteration f fprime args debug st = Ok st' ->
  (forall xs fvs dvs,
     R st = NdArray xs ->
     f (R st) args = Ok (NdArray fvs) -> fprime (R st) args = Ok (NdArray dvs) ->
     length fvs = length xs -> length dvs = length xs ->
     exists xs',
       R st' = NdArray xs' /\ length xs' = length xs /\
       forall i x fv dv,
         xs !! i = Some x -> fvs !! i = Some fv -> dvs !! i = Some dv ->
         xs' !! i = Some (newton_step x fv dv)) /\
  (forall vfv vdv x fv dv,
     number (R st) = Some x ->
     f (R st) args = Ok vfv -> number vfv = Some fv ->
     fprime (R st) args = Ok vdv -> number vdv = Some dv ->
     fleb dv f0 = false ->
     number (R st') = Some (raw_step x fv dv)).
Proof.
  intros Hit.
  apply iteration_locals in Hit
    as (fv0 & dv0 & Hf & Hfp & _ & _ & _ & _ & _ & _ & q & R1 & Hq & Hadd & Hdamp).
  split.
  - intros xs fvs dvs HR Hf' Hfp' Hlf Hld.
    rewrite Hf' in Hf. injection Hf as <-.
    rewrite Hfp' in Hfp. injection Hfp as <-.
    rewrite HR in Hadd.
    simpl in Hq. unfold broadcast in Hq.
    rewrite length_map, Hlf, Hld, Nat.eqb_refl in Hq. injection Hq as <-.
    simpl in Hadd. unfold broadcast in Hadd.
    rewrite length_zip_with, length_map, Hlf, Hld, Nat.min_id, Nat.eqb_refl in Hadd.
    injection Hadd as <-.
    set (raws := zip_with fadd (zip_with fdiv (map fneg fvs) dvs) xs) in *.
    assert (Hraws : length dvs = length raws).
    { unfold raws. rewrite !length_zip_with, length_map. lia. }
    assert (Hres : damp (NdArray raws) (where_le0 (NdArray dvs)) = Ok (R st')).
    { destruct (0 <? length (where_le0 (NdArray dvs)))%nat eqn:Hind;
        [exact Hdamp|].
      apply Nat.ltb_ge in Hind.
      destruct (where_le0 (NdArray dvs)); [exact Hdamp | simpl in Hind; lia]. }
    rewrite (damp_vector dvs raws Hraws) in Hres. injection Hres as Hres.
    exists (zip_with (fun d x => if fleb d f0 then damped x else x) dvs raws).
    split; [symmetry; exact Hres|]. split.
    { rewrite length_zip_with. lia. }
    intros i x fv dv Hx Hfv Hdv.
    rewrite lookup_zip_with, Hdv. simpl.
    unfold raws. rewrite !lookup_zip_with, list_lookup_fmap, Hfv, Hx. simpl.
    rewrite Hdv. simpl. unfold newton_step, raw_step.
    destruct (fleb dv f0); reflexivity.
  - intros vfv vdv x fv dv Hx Hf' Hfv Hfp' Hdv Hle.
    rewrite Hf' in Hf. injection Hf as <-.
    rewrite Hfp' in Hfp. injection Hfp as <-.
    destruct (R st) as [y|y|ys]; [| |discriminate];
      destruct vfv as [u|u|us]; try discriminate;
      destruct vdv as [w|w|ws]; try discriminate;
      simpl in Hx, Hfv, Hdv;
      injection Hx as ->; injection Hfv as ->; injection Hdv as ->;
      simpl in Hq, Hdamp; rewrite ?Hle in Hdamp;
      try (destruct (feqb dv f0); [discriminate Hq|]);
      injection Hq as <-; simpl in Hadd; injection Hadd as <-;
      simpl in Hdamp; injection Hdamp as <-; reflexivity.
Qed.

End VectorDamping.

(** ** The solver in exact real arithmetic *)

Section RealSolver.
Open Scope R_scope.
Context {A : Type}.
Variables f fprime : value real -> A -> result (value real).
Variable max_iter : Z.
Variable tol : real.
Variable args : A.
Variable debug : bool.



(** [max_abs] is the largest absolute value. *)
Lemma real_max_abs_fold (m : real) (ds : list real) :
  m <= foldl fmax m (map fabs ds) /\
  (forall d, d ∈ ds -> Rabs d <= foldl fmax m (map fabs ds)) /\
  (foldl fmax m (map fabs ds) = m \/
   exists d, d ∈ ds /\ foldl fmax m (map fabs ds) = Rabs d).
Proof.
  change (@fmax real real_arith) with Rmax.
  change (@fabs real real_arith) with Rabs.
  revert m. induction ds as [|d ds IH]; intros m; simpl.
  - split; [lra|]. split; [|left; reflexivity].
    intros d Hd. apply elem_of_nil in Hd. contradiction.
  - destruct (IH (Rmax m (Rabs d))) as (Hm & Hall & Hattained).
    pose proof (Rmax_l m (Rabs d)). pose proof (Rmax_r m (Rabs d)).
    split; [lra|]. split.
    + intros d' Hd'. apply elem_of_cons in Hd' as [-> | Hd']; [lra|].
      apply Hall. exact Hd'.
    + destruct Hattained as [Heq | (d' & Hd' & Heq)].
      * rewrite Heq. unfold Rmax. destruct (Rle_dec m (Rabs d)).
        -- right. exists d. split; [apply list_elem_of_here | reflexivity].
        -- left. reflexivity.
      * right. exists d'. split; [apply list_elem_of_further; exact Hd' | exact Heq].
Qed.

Lemma real_max_abs (y : real) (ys : list real) :
  (forall d, d ∈ y :: ys -> Rabs d <= max_abs y ys) /\
  (exists d, d ∈ y :: ys /\ max_abs y ys = Rabs d).
Proof.
  unfold max_abs.
  destruct (real_max_abs_fold (Rabs y) ys) as (Hm & Hall & Hattained).
  change (@fabs real real_arith y) with (Rabs y).
  split.
  - intros d Hd. apply elem_of_cons in Hd as [-> | Hd]; [exact Hm|].
    apply Hall. exact Hd.
  - destruct Hattained as [Heq | (d & Hd & Heq)].
    + exists y. split; [apply list_elem_of_here | exact Heq].
    + exists d. split; [apply list_elem_of_further; exact Hd | exact Heq].
Qed.


End RealSolver.

(** ** The solver in binary64 *)

Section Binary64Solver.
Context {A : Type}.
Variables f fprime : value float -> A -> result (value float).
Variable max_iter : Z.
Variable tol : float.
Variable args : A.
Variable debug : bool.

Lemma SFcompare_antisym (x y : spec_float) :
  SFcompare y x = option_map CompOpp (SFcompare x y).
Proof.
  destruct x as [sx|sx| |sx mx ex], y as [sy|sy| |sy my ey]; simpl;
    try reflexivity;
    try (destruct sx; reflexivity); try (destruct sy; reflexivity);
    try (destruct sx, sy; reflexivity).
  destruct sx, sy; simpl; try reflexivity;
    rewrite (Z.compare_antisym ex ey); destruct (ex ?= ey)%Z; simpl;
    try reflexivity;
    rewrite (Pos.compare_cont_antisym mx my Eq); reflexivity.
Qed.

Lemma SFcompare_none (x y : spec_float) :
  SFcompare x y = None <-> x = S754_nan \/ y = S754_nan.
Proof.
  destruct x as [sx|sx| |sx mx ex], y as [sy|sy| |sy my ey]; simpl;
    split; try discriminate; auto; intros [H|H]; discriminate H.
Qed.

Lemma is_nan_spec (x : float) : is_nan x = true <-> Prim2SF x = S754_nan.
Proof.
  unfold is_nan. rewrite FloatAxioms.eqb_spec. unfold SFeqb.
  destruct (Prim2SF x) as [s|s| |s m e]; simpl.
  - split; discriminate.
  - destruct s; split; discriminate.
  - split; reflexivity.
  - assert (Hc : Pos.compare_cont Eq m m = Eq) by apply Pos.compare_cont_refl.
    destruct s; rewrite Z.compare_refl, Hc; simpl; split; discriminate.
Qed.

(** The loop condition [e >= tol] is false when [e < tol], and when one
    of the two is NaN; in no other case. *)
Lemma binary64_loop_condition (e : float) :
  fgeb e tol = false <->
  PrimFloat.ltb e tol = true \/ is_nan e = true \/ is_nan tol = true.
Proof.
  unfold fgeb. simpl.
  rewrite FloatAxioms.leb_spec, FloatAxioms.ltb_spec, !is_nan_spec.
  unfold SFleb, SFltb.
  rewrite (SFcompare_antisym (Prim2SF e) (Prim2SF tol)).
  pose proof (SFcompare_none (Prim2SF e) (Prim2SF tol)) as Hnone.
  destruct (SFcompare (Prim2SF e) (Prim2SF tol)) as [[| |]|]; simpl.
  - split; [discriminate|]. intros [H|H]; [discriminate H|].
    apply Hnone in H. discriminate H.
  - split; [auto|reflexivity].
  - split; [discriminate|]. intros [H|H]; [discriminate H|].
    apply Hnone in H. discriminate H.
  - split; [|reflexivity]. intros _. right. apply Hnone. reflexivity.
Qed.

(** In binary64 the solver returns the converged tuple of the state
    after a run of the loop body exactly when the metric [e] of that
    state is below [tol], or [e] or [tol] is NaN. *)
Theorem binary64_stopping_rule st st' fuel :
  iteration f fprime args debug st = Ok st' ->
  exists e, epsilon st' = NpNum e /\
    ((exists fv dv,
        while_loop f fprime max_iter tol args debug (S fuel) st' =
        Some (Ok (Converged (R st') (count st') (NpNum e) fv dv
                            (f_return st') (fprime_return st'))))
     <-> PrimFloat.ltb e tol = true \/ is_nan e = true \/ is_nan tol = true).
Proof.
  intros Hit.
  destruct (iteration_stopping f fprime max_iter tol args debug st st' fuel Hit)
    as (e & He & Hstop).
  exists e. split; [exact He|]. rewrite Hstop. apply binary64_loop_condition.
Qed.

End Binary64Solver.

(** ** Further instances *)

(** The damping rule on the first pass of a vector solve of the parabola
    from [[1, -1, 2]]: the slopes are [[2, -2, 4]], and the middle
    element, whose raw step is [-1.5], becomes [-2.25]. *)
Lemma damping_rule_witness :
  exists st' xs',
    iteration parabola parabola_slope [] false
      (increment (initial (NdArray [1%float; (-1)%float; 2%float]))) = Ok st' /\
    R st' = NdArray xs' /\
    xs' !! 1%nat = Some (-2.25)%float /\
    xs' !! 2%nat = Some 1.5%float.
Proof.
  assert (Hit :
    exists st', iteration parabola parabola_slope [] false
      (increment (initial (NdArray [1%float; (-1)%float; 2%float]))) = Ok st')
    by (eexists; vm_compute; reflexivity).
  destruct Hit as (st' & Hit).
  destruct (damping_rule _ _ _ _ _ _ Hit) as [Hvec _].
  destruct (Hvec [1%float; (-1)%float; 2%float]
                 [(-1)%float; (-1)%float; 2%float]
                 [2%float; (-2)%float; 4%float]
                 eq_refl eq_refl eq_refl eq_refl eq_refl)
    as (xs' & HR & _ & Hpt).
  exists st', xs'. split; [exact Hit|]. split; [exact HR|]. split.
  - apply (Hpt 1%nat (-1)%float (-1)%float (-2)%float); reflexivity.
  - apply (Hpt 2%nat 2%float 2%float 4%float); reflexivity.
Defined.

(** The binary64 stopping rule on the first pass of the scalar solve of
    the parabola from [R = 1]. *)
Lemma binary64_stopping_rule_witness :
  exists st',
    iteration parabola parabola_slope [] false
      (increment (initial (PyNum 1%float))) = Ok st' /\
    exists e, epsilon st' = NpNum e /\
      ((exists fv dv,
          while_loop parabola parabola_slope 1000 default_tol [] false 1 st' =
          Some (Ok (Converged (R st') (count st') (NpNum e) fv dv
                              (f_return st') (fprime_return st'))))
       <-> PrimFloat.ltb e default_tol = true \/ is_nan e = true \/
           is_nan default_tol = true).
Proof.
  assert (Hit :
    exists st', iteration parabola parabola_slope [] false
      (increment (initial (PyNum 1%float))) = Ok st')
    by (eexists; vm_compute; reflexivity).
  destruct Hit as (st' & Hit). exists st'. split; [exact Hit|].
  apply (binary64_stopping_rule _ _ 1000 default_tol _ _ _ _ 0%nat Hit).
Defined.


(** * Further properties *)

(** ** The argument tuple *)

Section Arguments.
Context {F : Type} {arith : Arith F} {special : Special F} {step : Step F}.

(** The objective functions read [args[0]] to [args[4]] and the two
    sensitivities [args[0]] to [args[3]], and nothing else of the tuple:
    with fewer items each raises [IndexError], whatever the volatility
    and before any price is computed, and further items are ignored.  So
    the tuple that the solver hands to the objective function serves the
    sensitivity as it is. *)
Theorem argument_tuple_contract (sigma : value F) (args : list (value F)) :
  (call_objective_function sigma args
   = if (length args <? 5)%nat then Raise IndexError
     else call_objective_function sigma (take 5 args)) /\
  (put_objective_function sigma args
   = if (length args <? 5)%nat then Raise IndexError
     else put_objective_function sigma (take 5 args)) /\
  (call_ba_objective_function sigma args
   = if (length args <? 5)%nat then Raise IndexError
     else call_ba_objective_function sigma (take 5 args)) /\
  (calculate_vega sigma args
   = if (length args <? 4)%nat then Raise IndexError
     else calculate_vega sigma (take 4 args)) /\
  (calculate_vega_ba sigma args
   = if (length args <? 4)%nat then Raise IndexError
     else calculate_vega_ba sigma (take 4 args)).
Proof.
  destruct args as [|a0 [|a1 [|a2 [|a3 [|a4 rest]]]]];
    repeat split; reflexivity.
Qed.

(** On scalar arguments, with a volatility and a strike that are not
    zero, [calculate_vega] returns a NumPy scalar. *)
Lemma calculate_vega_scalars vsigma vS vK vr vt sigma S K r t rest :
  number vsigma = Some sigma -> number vS = Some S -> number vK = Some K ->
  number vr = Some r -> number vt = Some t ->
  feqb sigma f0 = false -> feqb K f0 = false -> feqb f2 f0 = false ->
  calculate_vega vsigma (vS :: vK :: vr :: vt :: rest)
  = Ok (NpNum (vega_scalar sigma S K r t)).
Proof.
  intros Hsigma HS HK Hr Ht Gsigma GK G2.
  repeat match goal with
         | Hn : number ?v = Some _ |- _ =>
             destruct v; simpl in Hn; [| |discriminate Hn];
             injection Hn as ->
         end.
  all: unfold calculate_vega, d1_of, d2_of; cbn;
    rewrite ?Gsigma, ?GK, ?G2; reflexivity.
Qed.

(** On scalar arguments with [2 * r] not zero, [calculate_vega_ba]
    returns a NumPy scalar. *)
Lemma calculate_vega_ba_scalars vsigma vS vK vr vt sigma S K r t rest :
  number vsigma = Some sigma -> number vS = Some S -> number vK = Some K ->
  number vr = Some r -> number vt = Some t ->
  feqb (fmul f2 r) f0 = false ->
  calculate_vega_ba vsigma (vS :: vK :: vr :: vt :: rest)
  = Ok (NpNum (vega_ba_scalar sigma S K r t)).
Proof.
  intros Hsigma HS HK Hr Ht G2r.
  repeat match goal with
         | Hn : number ?v = Some _ |- _ =>
             destruct v; simpl in Hn; [| |discriminate Hn];
             injection Hn as ->
         end.
  all: unfold calculate_vega_ba, bachelier, forward_minus_strike, bachelier_sd;
    cbn; rewrite ?G2r; reflexivity.
Qed.

End Arguments.

(** ** Residuals and sensitivities in exact real arithmetic *)

Section RealSensitivities.
Open Scope R_scope.
Variables Phi phi : real -> real.

#[local] Hint Extern 0 (Special real) =>
  exact (real_special Phi phi) : typeclass_instances.

#[local] Arguments put_price : simpl never.
#[local] Arguments bachelier : simpl never.

(** For scalar arguments of either kind, [put_objective_function]
    returns the put price less the observed price, as a NumPy scalar. *)
Theorem put_objective_function_real
  vsigma vS vK vr vt vprice sigma S K r t price rest :
  number vsigma = Some sigma -> number vS = Some S -> number vK = Some K ->
  number vr = Some r -> number vt = Some t -> number vprice = Some price ->
  0 < sigma -> 0 < t -> 0 < S -> 0 < K ->
  put_objective_function vsigma (vS :: vK :: vr :: vt :: vprice :: rest)
  = Ok (NpNum (spec_put Phi sigma S K r t - price)).
Proof.
  intros Hsigma HS HK Hr Ht Hprice Psigma Pt PS PK.
  unfold put_objective_function. cbn.
  rewrite (put_price_real Phi phi _ _ _ _ _ _ _ _ _ _
             Hsigma HS HK Hr Ht Psigma Pt PK).
  destruct vprice; simpl in Hprice; [| |discriminate Hprice];
    injection Hprice as ->; reflexivity.
Qed.

(** For scalar arguments of either kind and [r <> 0],
    [call_ba_objective_function] returns the arithmetic call price less
    the observed price, as a NumPy scalar. *)
Theorem call_ba_objective_function_real
  vsigma vS vK vr vt vprice sigma S K r t price rest :
  number vsigma = Some sigma -> number vS = Some S -> number vK = Some K ->
  number vr = Some r -> number vt = Some t -> number vprice = Some price ->
  0 < sigma -> 0 < t -> r <> 0 -> 0 < S -> 0 < K ->
  call_ba_objective_function vsigma (vS :: vK :: vr :: vt :: vprice :: rest)
  = Ok (NpNum (spec_arithmetic_call Phi phi sigma S K r t - price)).
Proof.
  intros Hsigma HS HK Hr Ht Hprice Psigma Pt Pr PS PK.
  unfold call_ba_objective_function. cbn.
  assert (G2r : feqb (fmul f2 r) f0 = false)
    by (apply Reqb_false; simpl; lra).
  rewrite (bachelier_scalars _ _ _ _ _ _ _ _ _ _ Hsigma HS HK Hr Ht G2r).
  rewrite bachelier_scalar_real.
  destruct vprice; simpl in Hprice; [| |discriminate Hprice];
    injection Hprice as ->; reflexivity.
Qed.

Lemma vega_scalar_real sigma S K r t :
  0 < sigma -> 0 < t ->
  vega_scalar sigma S K r t
  = S * phi (spec_d1 sigma S K r t) * R_sqrt.sqrt t.
Proof.
  intros Psigma Pt. unfold vega_scalar.
  rewrite d1_scalar_real by assumption. reflexivity.
Qed.


(** For [sigma > 0], [t > 0] and [r <> 0], [calculate_vega_ba] returns
    the forward difference quotient of the arithmetic call price in the
    volatility, with the step [1e-6]; the two prices divide by positive
    numbers. *)
Theorem calculate_vega_ba_quotient vsigma vS vK vr vt sigma S K r t rest :
  number vsigma = Some sigma -> number vS = Some S -> number vK = Some K ->
  number vr = Some r -> number vt = Some t ->
  0 < sigma -> 0 < t -> r <> 0 ->
  calculate_vega_ba vsigma (vS :: vK :: vr :: vt :: rest)
  = Ok (NpNum ((spec_arithmetic_call Phi phi (sigma + / 1000000) S K r t
                - spec_arithmetic_call Phi phi sigma S K r t) / / 1000000)) /\
  0 < spec_v sigma r t /\ 0 < spec_v (sigma + / 1000000) r t.
Proof.
  intros Hsigma HS HK Hr Ht Psigma Pt Pr.
  assert (G2r : feqb (fmul f2 r) f0 = false)
    by (apply Reqb_false; simpl; lra).
  rewrite (calculate_vega_ba_scalars _ _ _ _ _ _ _ _ _ _ rest
             Hsigma HS HK Hr Ht G2r).
  unfold vega_ba_scalar. rewrite !bachelier_scalar_real.
  split; [reflexivity|].
  split; apply spec_v_positive; try assumption; lra.
Qed.

End RealSensitivities.


(** The residual of a put quoted at 3.5. *)
Lemma put_objective_function_real_witness :
  put_objective_function (special := real_special symmetric_cdf symmetric_pdf)
    (PyNum (3 / 10)%R)
    [PyNum 105%R; PyNum 105%R; PyNum (1 / 100)%R; PyNum (30 / 365)%R;
     PyNum (7 / 2)%R]
  = Ok (NpNum (spec_put symmetric_cdf (3 / 10) 105 105 (1 / 100) (30 / 365)
               - 7 / 2)%R).
Proof.
  apply (put_objective_function_real symmetric_cdf symmetric_pdf);
    try reflexivity; lra.
Defined.

(** The residual of an arithmetic call quoted at 3.5. *)
Lemma call_ba_objective_function_real_witness :
  call_ba_objective_function
    (special := real_special symmetric_cdf symmetric_pdf)
    (PyNum (63 / 2)%R)
    [PyNum 105%R; PyNum 105%R; PyNum (1 / 100)%R; PyNum (30 / 365)%R;
     PyNum (7 / 2)%R]
  = Ok (NpNum (spec_arithmetic_call symmetric_cdf symmetric_pdf
                 (63 / 2) 105 105 (1 / 100) (30 / 365) - 7 / 2)%R).
Proof.
  apply (call_ba_objective_function_real symmetric_cdf symmetric_pdf);
    try reflexivity; lra.
Defined.


(** The difference quotient of the example option in the arithmetic
    model. *)
Lemma calculate_vega_ba_quotient_witness :
  calculate_vega_ba (special := real_special symmetric_cdf symmetric_pdf)
    (PyNum (63 / 2)%R)
    [PyNum 105%R; PyNum 105%R; PyNum (1 / 100)%R; PyNum (30 / 365)%R;
     PyNum (7 / 2)%R]
  = Ok (NpNum ((spec_arithmetic_call symmetric_cdf symmetric_pdf
                  (63 / 2 + / 1000000) 105 105 (1 / 100) (30 / 365)
                - spec_arithmetic_call symmetric_cdf symmetric_pdf
                    (63 / 2) 105 105 (1 / 100) (30 / 365))
               / / 1000000)%R) /\
  (0 < spec_v (63 / 2) (1 / 100) (30 / 365))%R /\
  (0 < spec_v (63 / 2 + / 1000000) (1 / 100) (30 / 365))%R.
Proof.
  apply (calculate_vega_ba_quotient symmetric_cdf symmetric_pdf);
    try reflexivity; lra.
Defined.

(** ** The exceptions of the solver *)

Section SolverErrors.
Context {F : Type} {arith : Arith F} {A : Type}.
Variables f fprime : value F -> A -> result (value F).
Variable max_iter : Z.
Variable tol : F.
Variable args : A.
Variable debug : bool.

Lemma broadcast_raises op (xs ys : list F) e :
  broadcast op xs ys = Raise e -> e = ValueError.
Proof.
  unfold broadcast. destruct (Nat.eqb _ _); [discriminate|].
  destruct xs as [|x [|x' xs]], ys as [|y [|y' ys]]; simpl;
    try discriminate; intros [= <-]; reflexivity.
Qed.

Lemma py_binop_raises op (a b : value F) e :
  py_binop op a b = Raise e -> e = ValueError.
Proof.
  destruct a as [x|x|xs], b as [y|y|ys]; simpl; try discriminate.
  destruct (broadcast op xs ys) eqn:Hb; simpl; [discriminate|].
  intros [= <-]. eapply broadcast_raises. exact Hb.
Qed.

Lemma py_div_raises (a b : value F) e :
  py_div a b = Raise e -> e = ValueError \/ e = ZeroDivisionError.
Proof.
  destruct a as [x|x|xs], b as [y|y|ys];
    try (intros Hb; left; apply (py_binop_raises _ _ _ _ Hb)).
  simpl. destruct (feqb y f0); [|discriminate].
  intros [= <-]. right. reflexivity.
Qed.

Lemma take_at_raises (xs : list F) ind e :
  take_at xs ind = Raise e -> e = IndexError.
Proof.
  induction ind as [|i ind IH]; simpl; [discriminate|].
  destruct (xs !! i); [|intros [= <-]; reflexivity].
  destruct (take_at xs ind); simpl; [discriminate|].
  intros [= <-]. apply IH. reflexivity.
Qed.

Lemma getitem_raises (a : value F) ind e :
  getitem a ind = Raise e -> e = TypeError \/ e = IndexError.
Proof.
  destruct a as [x|x|xs]; simpl.
  - intros [= <-]. auto.
  - intros [= <-]. auto.
  - destruct (take_at xs ind) eqn:Ht; simpl; [discriminate|].
    intros [= <-]. right. eapply take_at_raises. exact Ht.
Qed.

Lemma setitem_raises (a : value F) ind b e :
  setitem a ind b = Raise e -> body_error e.
Proof.
  unfold body_error.
  destruct a as [x|x|xs]; simpl; try (intros [= <-]; auto; fail).
  destruct b as [y|y|ys]; try discriminate.
  destruct (Nat.eqb _ _); [discriminate|].
  destruct ys as [|y [|y' ys]]; try discriminate; intros [= <-]; auto.
Qed.

Lemma damp_raises (R1 : value F) ind e :
  damp R1 ind = Raise e -> body_error e.
Proof.
  unfold damp, body_error. intros Hd.
  destruct (getitem R1 ind) as [x|e1] eqn:Hg; simpl in Hd.
  - destruct (py_mul x (PyNum fhalf)) as [y|e2] eqn:Hm; simpl in Hd.
    + destruct (py_add y x) as [z|e3] eqn:Ha; simpl in Hd.
      * apply setitem_raises in Hd. exact Hd.
      * injection Hd as <-. apply py_binop_raises in Ha. auto.
    + injection Hd as <-. apply py_binop_raises in Hm. auto.
  - injection Hd as <-. apply getitem_raises in Hg. tauto.
Qed.

Lemma linalg_norm_inf_raises (a : value F) e :
  linalg_norm_inf a = Raise e -> e = ValueError.
Proof.
  destruct a as [x|x|[|x xs]]; simpl; try discriminate;
    intros [= <-]; reflexivity.
Qed.

Lemma convergence_metric_raises (R2 old_R : value F) e :
  convergence_metric R2 old_R = Raise e -> body_error e.
Proof.
  unfold convergence_metric, body_error. intros Hm.
  destruct (py_sub R2 old_R) as [d|e1] eqn:Hs.
  - destruct (np_isscalar R2); simpl in Hm.
    + destruct (py_div d old_R) as [q|e2] eqn:Hq; simpl in Hm;
        [discriminate|].
      injection Hm as <-. apply py_div_raises in Hq. tauto.
    + apply linalg_norm_inf_raises in Hm. auto.
  - apply py_binop_raises in Hs. subst e1.
    destruct (np_isscalar R2); simpl in Hm; injection Hm as <-; auto.
Qed.

(** Where an exception of the loop body comes from. *)
Lemma iteration_raises st e :
  iteration f fprime args debug st = Raise e ->
  f (R st) args = Raise e \/
  (exists fv, f (R st) args = Ok fv /\ fprime (R st) args = Raise e) \/
  (exists fv dv, f (R st) args = Ok fv /\ fprime (R st) args = Ok dv /\
                 body_error e).
Proof.
  unfold iteration. intros Hit.
  destruct (f (R st) args) as [fv|e1]; simpl in Hit;
    [|left; congruence].
  destruct (fprime (R st) args) as [dv|e2]; simpl in Hit;
    [|right; left; exists fv; split; congruence].
  right. right. exists fv, dv. split; [reflexivity|]. split; [reflexivity|].
  destruct (py_div (py_neg fv) dv) as [q|e3] eqn:Hq; simpl in Hit.
  - destruct (py_add q (R st)) as [R1|e4] eqn:Ha; simpl in Hit.
    + destruct (if (0 <? length (where_le0 dv))%nat
                then damp R1 (where_le0 dv) else Ok R1) as [R2|e5] eqn:Hd;
        simpl in Hit.
      * destruct (convergence_metric R2 (R st)) as [eps|e6] eqn:Hm;
          simpl in Hit; [discriminate|].
        injection Hit as <-. eapply convergence_metric_raises. exact Hm.
      * injection Hit as <-.
        destruct (0 <? length (where_le0 dv))%nat; [|discriminate].
        eapply damp_raises. exact Hd.
    + injection Hit as <-. apply py_binop_raises in Ha.
      unfold body_error. auto.
  - injection Hit as <-. apply py_div_raises in Hq.
    unfold body_error. tauto.
Qed.

Lemma ge_tol_raises (a : value F) e :
  ge_tol a tol = Raise e -> e = ValueError.
Proof.
  destruct a as [x|x|[|x [|x' xs]]]; simpl; try discriminate;
    intros [= <-]; reflexivity.
Qed.

(** Every exception of the loop, traced back to the passes made. *)
Lemma while_loop_raises fuel k R0 st e :
  passes f fprime args debug k (initial R0) = Ok st ->
  while_loop f fprime max_iter tol args debug fuel st = Some (Raise e) ->
  (e = UnboundLocalError /\ ge_tol (PyNum f1) tol = Ok false) \/
  (exists k' st',
     passes f fprime args debug k' (initial R0) = Ok st' /\
     (f (R st') args = Raise e \/
      exists fv, f (R st') args = Ok fv /\ fprime (R st') args = Raise e)) \/
  body_error e.
Proof.
  revert k st. induction fuel as [|fuel IH]; intros k st Hk; [discriminate|].
  simpl. destruct (ge_tol (epsilon st) tol) as [[|]|e'] eqn:Hge.
  - destruct (count st + 1 >=? max_iter)%Z; [discriminate|].
    destruct (iteration f fprime args debug (increment st)) as [st2|e'] eqn:Hit.
    + apply (IH (S k) st2). apply passes_S. exists st.
      split; [exact Hk | exact Hit].
    + intros [= <-]. apply iteration_raises in Hit. simpl in Hit.
      destruct Hit as [Hf | [Hfp | (fv & dv & _ & _ & He)]].
      * right. left. exists k, st. auto.
      * right. left. exists k, st. auto.
      * right. right. exact He.
  - unfold final_return.
    destruct k as [|k].
    + simpl in Hk. injection Hk as <-. simpl. intros [= <-]. left.
      split; [reflexivity | exact Hge].
    + apply passes_bound in Hk as (fv & dv & -> & ->). discriminate.
  - intros [= <-]. apply ge_tol_raises in Hge. right. right.
    unfold body_error. auto.
Qed.

(** An exception that leaves [newtons_method] is one of three things:
    the [UnboundLocalError] of the final [return] when the loop was
    never entered, an exception that the objective function or the
    derivative raised at an estimate the solve reached, or one of the
    four exceptions that the arithmetic of the loop body raises. *)
Theorem newtons_method_exceptions R0 e :
  newtons_method f fprime max_iter tol args debug R0 = Some (Raise e) ->
  (e = UnboundLocalError /\ ge_tol (PyNum f1) tol = Ok false) \/
  (exists k st,
     passes f fprime args debug k (initial R0) = Ok st /\
     (f (R st) args = Raise e \/
      exists fv, f (R st) args = Ok fv /\ fprime (R st) args = Raise e)) \/
  e = TypeError \/ e = IndexError \/ e = ValueError \/ e = ZeroDivisionError.
Proof.
  intros Hnm. apply (while_loop_raises _ 0 R0 (initial R0) e eq_refl Hnm).
Qed.

(** The solver handles no exception: when the objective function or the
    derivative raises at an estimate that the loop reaches below the
    cap, the call of [newtons_method] raises the same exception. *)
Theorem objective_exception_propagates R0 k st e :
  passes f fprime args debug k (initial R0) = Ok st ->
  keeps_iterating f fprime tol args debug (S k) R0 ->
  (Z.of_nat k + 1 < max_iter)%Z ->
  f (R st) args = Raise e \/
  (exists fv, f (R st) args = Ok fv /\ fprime (R st) args = Raise e) ->
  newtons_method f fprime max_iter tol args debug R0 = Some (Raise e).
Proof.
  intros Hk Hkeep Hcap Hraise.
  assert (Hit : iteration f fprime args debug (increment st) = Raise e).
  { unfold iteration. simpl.
    destruct Hraise as [-> | (fv & -> & ->)]; reflexivity. }
  unfold newtons_method.
  replace (S (Z.to_nat max_iter))
    with (k + S (Z.to_nat max_iter - k))%nat by lia.
  rewrite (while_loop_unroll _ _ _ _ _ _ k _ _ _ Hk).
  - destruct (Hkeep k ltac:(lia)) as (s & Hs & Hge).
    rewrite Hk in Hs. injection Hs as <-.
    pose proof (passes_count _ _ _ _ _ _ _ Hk) as Hc. simpl in Hc.
    simpl. rewrite Hge.
    destruct (Z.geb_spec (count st + 1) max_iter) as [Hge'|_]; [lia|].
    rewrite Hit. reflexivity.
  - intros j Hj. apply Hkeep. lia.
  - simpl. lia.
Qed.

(** A tolerance that the initial [epsilon = 1] is not [>=] makes every
    call raise [UnboundLocalError], whatever the functions, the guess
    and the cap: the loop body never runs and the final [return] reads
    [function_value]. *)
Theorem loop_never_entered R0 :
  ge_tol (PyNum f1) tol = Ok false ->
  newtons_method f fprime max_iter tol args debug R0
  = Some (Raise UnboundLocalError).
Proof.
  intros Hge. unfold newtons_method.
  cbn [while_loop initial epsilon].
  rewrite Hge. reflexivity.
Qed.

(** The counter of a state that has been through the loop body is
    between one and the cap. *)
Lemma while_loop_below_cap fuel st R' c e fv dv fs fps :
  (0 <= count st)%Z ->
  (function_value st <> None -> (1 <= count st < max_iter)%Z) ->
  while_loop f fprime max_iter tol args debug fuel st
  = Some (Ok (Converged R' c e fv dv fs fps)) ->
  (1 <= c < max_iter)%Z.
Proof.
  revert st. induction fuel as [|fuel IH]; intros st Hnn Hst; [discriminate|].
  simpl. destruct (ge_tol (epsilon st) tol) as [[|]|e']; [| |discriminate].
  - destruct (Z.geb_spec (count st + 1) max_iter) as [|Hlt]; [discriminate|].
    destruct (iteration f fprime args debug (increment st)) as [st2|e'] eqn:Hit;
      [|discriminate].
    apply iteration_locals in Hit as (_ & _ & _ & _ & Hc & _).
    simpl in Hc. apply IH; rewrite Hc; lia.
  - unfold final_return.
    destruct (function_value st) as [fv'|] eqn:Hfv; [|discriminate].
    destruct (function_derivative st) as [dv'|]; [|discriminate].
    intros [= <- <- <- <- <- <- <-]. apply Hst. discriminate.
Qed.

(** A converged result carries a count of at least one that is below
    the cap: the solver never converges with [max_iter <= 1], and a
    count of [max_iter] tells the runaway exit. *)
Theorem converged_below_cap R0 R' c e fv dv fs fps :
  newtons_method f fprime max_iter tol args debug R0
  = Some (Ok (Converged R' c e fv dv fs fps)) ->
  (1 <= c < max_iter)%Z.
Proof.
  apply while_loop_below_cap; simpl; [lia | congruence].
Qed.

End SolverErrors.

Lemma Rleb_true (x y : real) : (x <= y)%R -> Rleb x y = true.
Proof. intros Hle. unfold Rleb. destruct (Rle_dec x y); [reflexivity|lra]. Qed.

(** The scalar solve of the parabola from [R = -1] in binary64 raises
    [IndexError], an exception of the loop body. *)
Lemma newtons_method_exceptions_witness :
  (IndexError = UnboundLocalError /\
   ge_tol (PyNum 1%float) default_tol = Ok false) \/
  (exists k st,
     passes parabola parabola_slope [] false k (initial (NpNum (-1)%float))
     = Ok st /\
     (parabola (R st) [] = Raise IndexError \/
      exists fv, parabola (R st) [] = Ok fv /\
                 parabola_slope (R st) [] = Raise IndexError)) \/
  IndexError = TypeError \/ IndexError = IndexError \/
  IndexError = ValueError \/ IndexError = ZeroDivisionError.
Proof.
  assert (Hrun :
    newtons_method parabola parabola_slope 1000 default_tol [] false
      (NpNum (-1)%float) = Some (Raise IndexError))
    by (vm_compute; reflexivity).
  exact (newtons_method_exceptions _ _ _ _ _ _ _ _ Hrun).
Defined.

(** The arithmetic call solve of the notebook with an empty argument
    tuple: the objective function raises [IndexError] on the first pass,
    and so does the solve. *)
Lemma objective_exception_propagates_witness :
  newtons_method
    (call_ba_objective_function
       (special := real_special symmetric_cdf symmetric_pdf))
    (calculate_vega_ba (special := real_special symmetric_cdf symmetric_pdf))
    1000 (1 / 1000)%R [] false (PyNum (1 / 2)%R)
  = Some (Raise IndexError).
Proof.
  apply (objective_exception_propagates _ _ _ _ _ _ _ 0
           (initial (PyNum (1 / 2)%R))).
  - reflexivity.
  - intros k Hk. exists (initial (PyNum (1 / 2)%R)).
    destruct k as [|k]; [|lia]. split; [reflexivity|].
    simpl. unfold fgeb. simpl. rewrite Rleb_true by lra. reflexivity.
  - lia.
  - left. reflexivity.
Defined.

(** With [tol = 2] the parabola is never evaluated. *)
Lemma loop_never_entered_witness :
  newtons_method parabola parabola_slope 1000 2%float [] false
    (PyNum 1%float)
  = Some (Raise UnboundLocalError).
Proof.
  apply (loop_never_entered parabola parabola_slope 1000 2%float [] false).
  reflexivity.
Defined.

(** The vector solve of the identity from [[1, 2]] converges with a
    count of 2, below the cap of 1000. *)
Lemma converged_below_cap_witness :
  newtons_method np_identity slope_one 1000 default_tol [] true
    (NdArray [1%float; 2%float])
  = Some (Ok (Converged (NdArray [0%float; 0%float]) 2 (NpNum 0%float)
                (NdArray [0%float; 0%float]) (NpNum 1%float)
                [NdArray [1%float; 2%float]; NdArray [0%float; 0%float]]
                [NpNum 1%float; NpNum 1%float])) /\
  (1 <= 2 < 1000)%Z.
Proof.
  assert (Hrun :
    newtons_method np_identity slope_one 1000 default_tol [] true
      (NdArray [1%float; 2%float])
    = Some (Ok (Converged (NdArray [0%float; 0%float]) 2 (NpNum 0%float)
                  (NdArray [0%float; 0%float]) (NpNum 1%float)
                  [NdArray [1%float; 2%float]; NdArray [0%float; 0%float]]
                  [NpNum 1%float; NpNum 1%float])))
    by (vm_compute; reflexivity).
  split; [exact Hrun|].
  exact (converged_below_cap _ _ _ _ _ _ _ _ _ _ _ _ _ _ Hrun).
Defined.

(** ** Vector solves *)

Section VectorSolve.
Context {F : Type} {arith : Arith F} {A : Type}.
Variables f fprime : value F -> A -> result (value F).
Variable max_iter : Z.
Variable tol : F.
Variable args : A.
Variable debug : bool.

(** The loop body on a vector estimate, with a residual and a
    derivative array of its length. *)
Lemma iteration_vector st xs fvs dvs :
  R st = NdArray xs -> xs <> [] ->
  f (R st) args = Ok (NdArray fvs) -> fprime (R st) args = Ok (NdArray dvs) ->
  length fvs = length xs -> length dvs = length xs ->
  exists st' y ys,
    iteration f fprime args debug st = Ok st' /\
    R st' = NdArray (zip_with (fun d x => if fleb d f0 then damped x else x) dvs
                       (zip_with fadd (zip_with fdiv (map fneg fvs) dvs) xs)) /\
    zip_with fsub
      (zip_with (fun d x => if fleb d f0 then damped x else x) dvs
         (zip_with fadd (zip_with fdiv (map fneg fvs) dvs) xs)) xs = y :: ys /\
    epsilon st' = NpNum (max_abs y ys) /\
    function_value st' = Some (NdArray fvs) /\
    function_derivative st' = Some (NdArray dvs).
Proof.
  intros HR Hne Hf Hfp Hlf Hld.
  set (raws := zip_with fadd (zip_with fdiv (map fneg fvs) dvs) xs).
  set (xs' := zip_with (fun d x => if fleb d f0 then damped x else x) dvs raws).
  assert (Hraws : length dvs = length raws).
  { unfold raws. rewrite !length_zip_with, length_map. lia. }
  assert (Hxs' : length xs' = length xs).
  { unfold xs'. rewrite length_zip_with. lia. }
  assert (Hdamp :
    (if (0 <? length (where_le0 (NdArray dvs)))%nat
     then damp (NdArray raws) (where_le0 (NdArray dvs))
     else Ok (NdArray raws)) = Ok (NdArray xs')).
  { pose proof (damp_vector dvs raws Hraws) as Hd.
    destruct (0 <? length (where_le0 (NdArray dvs)))%nat eqn:Hind;
      [exact Hd|].
    apply Nat.ltb_ge in Hind.
    destruct (where_le0 (NdArray dvs)); [exact Hd | simpl in Hind; lia]. }
  destruct (zip_with fsub xs' xs) as [|y ys] eqn:Hzip.
  { apply (f_equal length) in Hzip. rewrite length_zip_with in Hzip.
    simpl in Hzip. destruct xs; [contradiction | simpl in *; lia]. }
  eexists _, y, ys. split; [|split; [|split; [|split; [|split]]]].
  - unfold iteration. rewrite Hf, Hfp, HR. simpl.
    unfold broadcast.
    rewrite length_map, Hlf, Hld, Nat.eqb_refl. simpl.
    unfold broadcast.
    rewrite length_zip_with, length_map, Hlf, Hld, Nat.min_id, Nat.eqb_refl.
    simpl. fold raws.
    change (nonpositive_from 0 dvs) with (where_le0 (NdArray dvs)).
    rewrite Hdamp. simpl. unfold convergence_metric. simpl.
    unfold broadcast. rewrite Hxs', Nat.eqb_refl. simpl.
    rewrite Hzip. simpl. reflexivity.
  - reflexivity.
  - reflexivity.
  - reflexivity.
  - reflexivity.
  - reflexivity.
Qed.

Lemma while_loop_vector n fuel st r :
  (0 < n)%nat -> conforming args n f -> conforming args n fprime ->
  (exists xs, R st = NdArray xs /\ length xs = n) ->
  (function_value st = None /\ ge_tol (epsilon st) tol = Ok true) \/
  (exists fv dv e, function_value st = Some fv /\
                   function_derivative st = Some dv /\
                   epsilon st = NpNum e) ->
  while_loop f fprime max_iter tol args debug fuel st = Some r ->
  exists o, r = Ok o.
Proof.
  intros Hn Hf Hfp. revert st.
  induction fuel as [|fuel IH]; intros st (xs & HR & Hlen) Hst; [discriminate|].
  simpl.
  assert (Hge : exists b, ge_tol (epsilon st) tol = Ok b).
  { destruct Hst as [[_ Hge] | (fv & dv & e & _ & _ & He)]; [eauto|].
    rewrite He. simpl. eauto. }
  destruct Hge as ([|] & Hge); rewrite Hge.
  - destruct (count st + 1 >=? max_iter)%Z; [intros [= <-]; eauto|].
    destruct (Hf xs Hlen) as (fvs & Hfv & Hlf).
    destruct (Hfp xs Hlen) as (dvs & Hdv & Hld).
    destruct (iteration_vector (increment st) xs fvs dvs)
      as (st' & y & ys & Hit & HR' & _ & He & Hfv' & Hdv'); simpl;
      try rewrite HR; try congruence.
    { intros ->. simpl in Hlen. lia. }
    rewrite Hit. apply IH.
    + eexists. split; [exact HR'|].
      rewrite !length_zip_with, length_map. lia.
    + right. eauto 6.
  - destruct Hst as [[_ Hge'] | (fv & dv & e & Hfv & Hdv & _)];
      [congruence|].
    unfold final_return. rewrite Hfv, Hdv. intros [= <-]. eauto.
Qed.

(** A vector solve never raises: when the objective function and the
    derivative answer every vector of the length of the guess by a
    vector of that length, and the loop is entered, [newtons_method]
    returns, with the converged tuple or from the runaway exit. *)
Theorem vector_solve_never_raises n xs0 :
  (0 < n)%nat -> length xs0 = n ->
  conforming args n f -> conforming args n fprime ->
  ge_tol (PyNum f1) tol = Ok true ->
  exists o,
    newtons_method f fprime max_iter tol args debug (NdArray xs0) = Some (Ok o).
Proof.
  intros Hn Hlen Hf Hfp Hge.
  destruct (while_loop_returns f fprime max_iter tol args debug
              (S (Z.to_nat max_iter)) (initial (NdArray xs0)))
    as (r & Hr); [lia | simpl; lia |].
  assert (Ho : exists o, r = Ok o).
  { apply (while_loop_vector n (S (Z.to_nat max_iter))
             (initial (NdArray xs0)) r Hn Hf Hfp); [| |exact Hr].
    - exists xs0. split; [reflexivity | exact Hlen].
    - left. split; [reflexivity | exact Hge]. }
  destruct Ho as (o & ->). exists o. exact Hr.
Qed.

End VectorSolve.

(** ** Fixed points of the loop body in exact real arithmetic *)

Section RealFixedPoints.
Open Scope R_scope.
Context {A : Type}.
Variables f fprime : value real -> A -> result (value real).
Variable args : A.
Variable debug : bool.

Lemma real_newton_step_fixed (x fv d : real) :
  d <> 0 ->
  (newton_step x fv d = x <-> (0 < d /\ fv = 0) \/ (d < 0 /\ 3 * fv = x * d)).
Proof.
  intros Hd. unfold newton_step, damped, raw_step. simpl.
  unfold Rleb. destruct (Rle_dec d 0) as [Hle|Hgt].
  - assert (Hneg : d < 0) by lra.
    assert (Heq : (- fv / d + x) * (1 / 2) + (- fv / d + x) - x
                  = (x * d - 3 * fv) / (2 * d)) by (field; exact Hd).
    split.
    + intros Hx. right. split; [exact Hneg|].
      assert (Hz : (x * d - 3 * fv) / (2 * d) = 0) by lra.
      unfold Rdiv in Hz. apply Rmult_integral in Hz as [Hz|Hz]; [lra|].
      assert (Hinv : / (2 * d) <> 0) by (apply Rinv_neq_0_compat; lra).
      contradiction.
    + intros [[Hpos _]|[_ H3]]; [lra|].
      assert (Hz : (x * d - 3 * fv) / (2 * d) = 0).
      { replace (x * d - 3 * fv) with 0 by lra. unfold Rdiv. ring. }
      lra.
  - assert (Hpos : 0 < d) by lra.
    split.
    + intros Hx. left. split; [exact Hpos|].
      assert (Hz : - fv / d = 0) by lra.
      unfold Rdiv in Hz. apply Rmult_integral in Hz as [Hz|Hz]; [lra|].
      assert (Hinv : / d <> 0) by (apply Rinv_neq_0_compat; lra).
      contradiction.
    + intros [[_ ->]|[Hneg _]]; [|lra].
      unfold Rdiv. ring.
Qed.

Lemma zip_with_minus_zero (xs' xs : list real) :
  length xs' = length xs ->
  ((forall d, d ∈ zip_with Rminus xs' xs -> d = 0) <-> xs' = xs).
Proof.
  revert xs. induction xs' as [|x' xs' IH]; intros [|x xs] Hlen;
    simpl in Hlen; try lia.
  - split; [reflexivity|]. intros _ d Hd. simpl in Hd.
    apply elem_of_nil in Hd. contradiction.
  - simpl. split.
    + intros Hall.
      assert (Hx : x' - x = 0) by (apply Hall; apply list_elem_of_here).
      assert (Hxs : xs' = xs).
      { apply IH; [lia|]. intros d Hd. apply Hall.
        apply list_elem_of_further. exact Hd. }
      subst xs'. f_equal. lra.
    + intros [= -> ->] d Hd.
      apply elem_of_cons in Hd as [-> | Hd]; [lra|].
      revert d Hd. apply IH; [lia | reflexivity].
Qed.

(** In exact real arithmetic, a pass over a vector estimate with slopes
    that are not zero keeps an element exactly when its slope is
    positive and its residual is zero, or its slope is negative and
    [3 fv = x dv].  So an element at a root of negative slope moves,
    unless it is zero.  The metric of the pass is zero exactly when
    every element is kept. *)
Theorem vector_fixed_points st xs fvs dvs :
  R st = NdArray xs -> xs <> [] ->
  f (R st) args = Ok (NdArray fvs) -> fprime (R st) args = Ok (NdArray dvs) ->
  length fvs = length xs -> length dvs = length xs ->
  (forall d, d ∈ dvs -> d <> 0) ->
  exists st' xs' e,
    iteration f fprime args debug st = Ok st' /\
    R st' = NdArray xs' /\ epsilon st' = NpNum e /\
    (forall i x fv d x',
       xs !! i = Some x -> fvs !! i = Some fv -> dvs !! i = Some d ->
       xs' !! i = Some x' ->
       (x' = x <-> (0 < d /\ fv = 0) \/ (d < 0 /\ 3 * fv = x * d))) /\
    (e = 0 <-> xs' = xs).
Proof.
  intros HR Hne Hf Hfp Hlf Hld Hnz.
  destruct (iteration_vector f fprime args debug st xs fvs dvs
              HR Hne Hf Hfp Hlf Hld)
    as (st' & y & ys & Hit & HR' & Hzip & He & _).
  set (xs' := zip_with (fun d x => if fleb d f0 then damped x else x) dvs
                (zip_with fadd (zip_with fdiv (map fneg fvs) dvs) xs)) in *.
  assert (Hlen : length xs' = length xs).
  { unfold xs'. rewrite !length_zip_with, length_map. lia. }
  exists st', xs', (max_abs y ys).
  split; [exact Hit|]. split; [exact HR'|]. split; [exact He|]. split.
  - intros i x fv d x' Hx Hfv Hd Hx'.
    unfold xs' in Hx'.
    rewrite lookup_zip_with, Hd in Hx'. simpl in Hx'.
    rewrite !lookup_zip_with, list_lookup_fmap, Hfv, Hx in Hx'.
    simpl in Hx'. rewrite Hd in Hx'. simpl in Hx'.
    injection Hx' as <-.
    assert (Hd0 : d <> 0).
    { apply Hnz. apply list_elem_of_lookup. exists i. exact Hd. }
    pose proof (real_newton_step_fixed x fv d Hd0) as Hfix.
    unfold newton_step, raw_step in Hfix. exact Hfix.
  - rewrite <- (zip_with_minus_zero xs' xs Hlen).
    change (zip_with Rminus xs' xs) with (zip_with fsub xs' xs).
    rewrite Hzip.
    destruct (real_max_abs y ys) as (Hall & d0 & Hd0 & Hmax).
    split.
    + intros He0 d Hd. specialize (Hall d Hd).
      pose proof (Rabs_pos d) as Hpos.
      assert (Hz : Rabs d = 0) by lra.
      destruct (Req_dec d 0) as [Heq|Hneq]; [exact Heq|].
      apply Rabs_no_R0 in Hneq. contradiction.
    + intros Hzero. rewrite Hmax, (Hzero d0 Hd0). apply Rabs_R0.
Qed.

End RealFixedPoints.

(** The parabola over vectors of length 2 from [[1, 2]]. *)
Lemma vector_solve_never_raises_witness :
  exists o,
    newtons_method parabola parabola_slope 1000 default_tol [] false
      (NdArray [1%float; 2%float]) = Some (Ok o).
Proof.
  apply (vector_solve_never_raises parabola parabola_slope 1000 default_tol
           [] false 2 [1%float; 2%float]).
  - lia.
  - reflexivity.
  - intros xs Hlen. eexists. split.
    + unfold parabola. simpl. unfold broadcast. rewrite Nat.eqb_refl.
      simpl. reflexivity.
    + rewrite length_map, length_zip_with. lia.
  - intros xs Hlen. eexists. split.
    + unfold parabola_slope. simpl. reflexivity.
    + rewrite length_map. exact Hlen.
  - reflexivity.
Defined.

(** Two elements at a root, of slopes 1 and -1: the first stays at 2,
    the second moves to 3. *)
Lemma vector_fixed_points_witness :
  exists st' xs' e,
    iteration (fun _ (_ : list (value real)) => Ok (NdArray [0%R; 0%R]))
              (fun _ _ => Ok (NdArray [1%R; (-1)%R])) [] false
              (increment (initial (NdArray [2%R; 2%R]))) = Ok st' /\
    R st' = NdArray xs' /\ epsilon st' = NpNum e /\
    (forall i x fv d x',
       [2%R; 2%R] !! i = Some x -> [0%R; 0%R] !! i = Some fv ->
       [1%R; (-1)%R] !! i = Some d ->
       xs' !! i = Some x' ->
       (x' = x <-> (0 < d /\ fv = 0) \/ (d < 0 /\ 3 * fv = x * d))%R) /\
    (e = 0%R <-> xs' = [2%R; 2%R]).
Proof.
  apply (vector_fixed_points
           (fun _ (_ : list (value real)) => Ok (NdArray [0%R; 0%R]))
           (fun _ _ => Ok (NdArray [1%R; (-1)%R])) [] false
           (increment (initial (NdArray [2%R; 2%R])))
           [2%R; 2%R] [0%R; 0%R] [1%R; (-1)%R]);
    try reflexivity; try discriminate.
  intros d Hd.
  apply elem_of_cons in Hd as [-> | Hd]; [lra|].
  apply elem_of_cons in Hd as [-> | Hd]; [lra|].
  apply elem_of_nil in Hd. contradiction.
Defined.

(** ** A linear residual in exact real arithmetic *)

Section RealLinear.
Open Scope R_scope.
Context {A : Type}.
Variables f fprime : value real -> A -> result (value real).
Variable max_iter : Z.
Variable tol : real.
Variable args : A.
Variable debug : bool.
Variables a c : real.

Hypothesis f_linear :
  forall v x, number v = Some x -> f v args = Ok (NpNum (a * (x - c))).
Hypothesis fprime_constant :
  forall v x, number v = Some x -> fprime v args = Ok (NpNum a).
Hypothesis slope_positive : 0 < a.

Lemma while_loop_S fuel st :
  while_loop f fprime max_iter tol args debug (S fuel) st
  = match ge_tol (epsilon st) tol with
    | Raise e => Some (Raise e)
    | Ok false => Some (final_return st)
    | Ok true =>
        if (count (increment st) >=? max_iter)%Z
        then Some (Ok (Aborted (R (increment st)) (count (increment st))))
        else match iteration f fprime args debug (increment st) with
             | Raise e => Some (Raise e)
             | Ok st2 => while_loop f fprime max_iter tol args debug fuel st2
             end
    end.
Proof. reflexivity. Qed.

(** One Newton step lands on the root [c]. *)
Lemma iteration_linear st x :
  number (R st) = Some x -> x <> 0 ->
  iteration f fprime args debug st
  = Ok {| R := NpNum c; count := count st;
          epsilon := NpNum (Rabs (c - x) / Rabs x);
          f_return := if debug then f_return st ++ [NpNum (a * (x - c))]
                      else f_return st;
          fprime_return := if debug then fprime_return st ++ [NpNum a]
                           else fprime_return st;
          function_value := Some (NpNum (a * (x - c)));
          function_derivative := Some (NpNum a) |}.
Proof.
  intros Hx Hx0. unfold iteration.
  rewrite (f_linear _ _ Hx), (fprime_constant _ _ Hx). simpl.
  rewrite (Rleb_false a 0) by exact slope_positive. simpl.
  assert (Hstep : - (a * (x - c)) / a + x = c) by (field; lra).
  destruct (R st) as [y|y|ys]; simpl in Hx; [| |discriminate];
    injection Hx as ->; simpl; rewrite Hstep;
    unfold Rdiv; rewrite Rabs_mult, Rabs_inv; reflexivity.
Qed.

(** In exact real arithmetic, a scalar solve of a residual
    [a (R - c)] of positive slope [a], from a guess that is not zero,
    returns the root [c] after one pass when the relative change of
    that pass is below [tol], and after two passes otherwise.  The
    residual it returns is that of the estimate before the last step. *)
Theorem linear_residual_solved vR0 x0 :
  number vR0 = Some x0 -> x0 <> 0 -> c <> 0 ->
  0 < tol <= 1 -> (3 <= max_iter)%Z ->
  exists n e fv fs fps,
    newtons_method f fprime max_iter tol args debug vR0
    = Some (Ok (Converged (NpNum c) n (NpNum e) (NpNum fv) (NpNum a) fs fps)) /\
    ((n = 1%Z /\ e = Rabs (c - x0) / Rabs x0 /\ e < tol /\
      fv = a * (x0 - c)) \/
     (n = 2%Z /\ tol <= Rabs (c - x0) / Rabs x0 /\ e = 0 /\ fv = 0)).
Proof.
  intros Hx0 Hnz Hc Htol Hcap.
  unfold newtons_method.
  assert (Hfuel : exists m, S (Z.to_nat max_iter) = S (S (S m))).
  { exists (Z.to_nat max_iter - 2)%nat. lia. }
  destruct Hfuel as (m & ->).
  rewrite while_loop_S.
  assert (Hge0 : ge_tol (epsilon (initial vR0)) tol = Ok true).
  { simpl. unfold fgeb. simpl. rewrite Rleb_true by lra. reflexivity. }
  rewrite Hge0.
  destruct (Z.geb_spec (count (increment (initial vR0))) max_iter) as [Hge|_];
    [simpl in Hge; lia|].
  rewrite (iteration_linear (increment (initial vR0)) x0 Hx0 Hnz).
  rewrite while_loop_S. simpl epsilon.
  simpl ge_tol. unfold fgeb. simpl fleb. unfold Rleb.
  destruct (Rle_dec tol (Rabs (c - x0) / Rabs x0)) as [Hle|Hlt].
  - match goal with
    | |- context [(?n >=? max_iter)%Z] =>
        destruct (Z.geb_spec n max_iter) as [Hge|_]; [simpl in Hge; lia|]
    end.
    match goal with
    | |- context [iteration f fprime args debug ?s] =>
        rewrite (iteration_linear s c eq_refl Hc)
    end.
    rewrite while_loop_S. simpl epsilon.
    assert (Hzero : Rabs (c - c) / Rabs c = 0).
    { replace (c - c) with 0 by ring. rewrite Rabs_R0. unfold Rdiv. ring. }
    simpl ge_tol. unfold fgeb. simpl fleb.
    rewrite Hzero, (Rleb_false tol 0) by lra.
    unfold final_return. simpl.
    do 5 eexists. split; [reflexivity|]. right.
    split; [reflexivity|]. split; [exact Hle|]. split; [reflexivity|]. ring.
  - unfold final_return. simpl.
    do 5 eexists. split; [reflexivity|]. left.
    split; [reflexivity|]. split; [reflexivity|]. split; [lra|reflexivity].
Qed.

End RealLinear.

(** The residual [3 (R - 2)] from the guess 1: the first pass moves the
    estimate by its whole size, the second pass leaves it. *)
Lemma linear_residual_solved_witness :
  exists n e fv fs fps,
    newtons_method
      (fun v (_ : list (value real)) =>
         d ← py_sub v (PyNum 2%R); np_multiply (PyNum 3%R) d)
      (fun _ _ => Ok (NpNum 3%R)) 1000 (1 / 1000)%R [] false (PyNum 1%R)
    = Some (Ok (Converged (NpNum 2%R) n (NpNum e) (NpNum fv) (NpNum 3%R)
                  fs fps)) /\
    ((n = 1%Z /\ e = (Rabs (2 - 1) / Rabs 1)%R /\ (e < 1 / 1000)%R /\
      fv = (3 * (1 - 2))%R) \/
     (n = 2%Z /\ (1 / 1000 <= Rabs (2 - 1) / Rabs 1)%R /\ e = 0%R /\
      fv = 0%R)).
Proof.
  apply (linear_residual_solved
           (fun v (_ : list (value real)) =>
              d ← py_sub v (PyNum 2%R); np_multiply (PyNum 3%R) d)
           (fun _ _ => Ok (NpNum 3%R)) 1000 (1 / 1000)%R [] false 3%R 2%R)
    with (x0 := 1%R); try reflexivity; try lra; try lia.
  intros v x Hx. destruct v; simpl in Hx; [| |discriminate];
    injection Hx as ->; reflexivity.
Defined.

(** ** The sign of the volatility in the arithmetic model *)

Section EvenVolatility.
Context {F : Type} {arith : Arith F} {special : Special F}.
Hypothesis sq_neg : forall x : F, fmul (fneg x) (fneg x) = fmul x x.

Lemma py_sq_neg (sigma : value F) : py_sq (py_neg sigma) = py_sq sigma.
Proof.
  destruct sigma as [x|x|xs]; simpl; rewrite ?sq_neg; try reflexivity.
  rewrite map_map. f_equal. apply map_ext. intros x. apply sq_neg.
Qed.

Lemma bachelier_sd_neg (sigma r t : value F) :
  bachelier_sd (py_neg sigma) r t = bachelier_sd sigma r t.
Proof. unfold bachelier_sd. rewrite py_sq_neg. reflexivity. Qed.

Lemma bachelier_neg (sigma S K r t : value F) :
  bachelier (py_neg sigma) S K r t = bachelier sigma S K r t.
Proof. unfold bachelier. rewrite bachelier_sd_neg. reflexivity. Qed.

End EvenVolatility.

Lemma SFmul_opp (prec emax : Z) (a : spec_float) :
  SFmul prec emax (SFopp a) (SFopp a) = SFmul prec emax a a.
Proof. destruct a as [[|]|[|]| |[|] m e]; reflexivity. Qed.

Lemma binary64_sq_neg (x : float) :
  PrimFloat.mul (PrimFloat.opp x) (PrimFloat.opp x) = PrimFloat.mul x x.
Proof.
  apply Prim2SF_inj.
  rewrite !FloatAxioms.mul_spec, !FloatAxioms.opp_spec. apply SFmul_opp.
Qed.

(** [bachelier] sees the volatility only through [sigma**2]: in binary64
    as in exact real arithmetic, and for arguments of every kind and
    shape, [-sigma] gives the price (or the exception) that [sigma]
    gives, and the arithmetic objective function cannot tell the two
    apart. *)
Theorem bachelier_even_in_volatility :
  (forall (special : Special float) (sigma S K r t : value float)
          (args : list (value float)),
     bachelier (py_neg sigma) S K r t = bachelier sigma S K r t /\
     call_ba_objective_function (py_neg sigma) args
     = call_ba_objective_function sigma args) /\
  (forall (Phi phi : real -> real) (sigma S K r t : value real)
          (args : list (value real)),
     bachelier (special := real_special Phi phi) (py_neg sigma) S K r t
     = bachelier (special := real_special Phi phi) sigma S K r t /\
     call_ba_objective_function (special := real_special Phi phi)
       (py_neg sigma) args
     = call_ba_objective_function (special := real_special Phi phi)
         sigma args).
Proof.
  split.
  - intros special sigma S K r t args0.
    assert (Hneg : forall S' K' r' t',
              bachelier (py_neg sigma) S' K' r' t' = bachelier sigma S' K' r' t')
      by (intros; apply bachelier_neg; exact binary64_sq_neg).
    split; [apply Hneg|].
    unfold call_ba_objective_function.
    destruct (arg args0 0) as [S'|]; simpl; [|reflexivity].
    destruct (arg args0 1) as [K'|]; simpl; [|reflexivity].
    destruct (arg args0 2) as [r'|]; simpl; [|reflexivity].
    destruct (arg args0 3) as [t'|]; simpl; [|reflexivity].
    destruct (arg args0 4) as [p'|]; simpl; [|reflexivity].
    rewrite Hneg. reflexivity.
  - intros Phi phi sigma S K r t args0.
    assert (Hsq : forall x : real, fmul (fneg x) (fneg x) = fmul x x)
      by (intros x; simpl; ring).
    assert (Hneg : forall S' K' r' t',
              bachelier (special := real_special Phi phi)
                (py_neg sigma) S' K' r' t'
              = bachelier (special := real_special Phi phi) sigma S' K' r' t')
      by (intros; apply bachelier_neg; exact Hsq).
    split; [apply Hneg|].
    unfold call_ba_objective_function.
    destruct (arg args0 0) as [S'|]; simpl; [|reflexivity].
    destruct (arg args0 1) as [K'|]; simpl; [|reflexivity].
    destruct (arg args0 2) as [r'|]; simpl; [|reflexivity].
    destruct (arg args0 3) as [t'|]; simpl; [|reflexivity].
    destruct (arg args0 4) as [p'|]; simpl; [|reflexivity].
    rewrite Hneg. reflexivity.
Qed.

(** ** The arithmetic call over arrays *)

Section ArithmeticSpots.
Context {F : Type} {arith : Arith F} {special : Special F}.

(** With arrays of one length for the volatility and the spot price
    and Python numbers for the rest, [bachelier] works element by
    element. *)
Lemma bachelier_spots (sigmas Ss : list F) (K r t : F) :
  length sigmas = length Ss ->
  bachelier (NdArray sigmas) (NdArray Ss) (PyNum K) (PyNum r) (PyNum t)
  = Ok (NdArray (zip_with (fun sigma S => bachelier_scalar sigma S K r t)
                   sigmas Ss)).
Proof.
  intros Hlen.
  unfold bachelier, forward_minus_strike, bachelier_sd. cbn.
  unfold broadcast. rewrite !length_map, Hlen, Nat.eqb_refl. cbn.
  unfold broadcast.
  rewrite !length_map, !length_zip_with, !length_map, Hlen, Nat.min_id,
    Nat.eqb_refl. cbn.
  unfold broadcast.
  rewrite !length_zip_with, !length_map, !length_zip_with, !length_map,
    Hlen, !Nat.min_id, Nat.eqb_refl. cbn.
  do 2 f_equal. apply list_eq. intros i.
  rewrite !lookup_zip_with, !list_lookup_fmap, !lookup_zip_with,
    !list_lookup_fmap.
  destruct (Ss !! i) as [S|], (sigmas !! i) as [sigma|]; reflexivity.
Qed.

(** Arrays whose lengths differ, none of them 1, are refused. *)
Lemma bachelier_shapes (sigmas Ss : list F) (K r t : F) :
  length sigmas <> length Ss -> length sigmas <> 1%nat ->
  length Ss <> 1%nat ->
  bachelier (NdArray sigmas) (NdArray Ss) (PyNum K) (PyNum r) (PyNum t)
  = Raise ValueError.
Proof.
  intros Hlen Hs HS.
  unfold bachelier, forward_minus_strike, bachelier_sd. cbn.
  unfold broadcast. rewrite !length_map.
  destruct (Nat.eqb_spec (length Ss) (length sigmas)) as [Heq|_]; [lia|].
  destruct Ss as [|S [|S' Ss]], sigmas as [|sigma [|sigma' sigmas]];
    simpl in *; try lia; reflexivity.
Qed.

End ArithmeticSpots.

Section RealSpots.
Open Scope R_scope.
Variables Phi phi : real -> real.

#[local] Hint Extern 0 (Special real) =>
  exact (real_special Phi phi) : typeclass_instances.

#[local] Arguments bachelier : simpl never.

(** The notebook's comparison of the two models calls
    [bachelier(sigma * S, S, K, r, t)] with an array of spot prices:
    for [sigma > 0], [t > 0], [r <> 0] and positive spot prices the
    result is the array of the arithmetic call prices
    [e^(-rt) ((S e^(rt) - K) Phi(d) + v phi(d))] at the volatilities
    [sigma S], each with a positive [v]; arrays of different lengths
    (none of them 1) are refused with [ValueError]. *)
Theorem arithmetic_call_over_spots sigma Ss K r t :
  0 < sigma -> 0 < t -> r <> 0 -> (forall S, S ∈ Ss -> 0 < S) ->
  (exists sigmas,
     py_mul (PyNum sigma) (NdArray Ss) = Ok (NdArray sigmas) /\
     bachelier (NdArray sigmas) (NdArray Ss) (PyNum K) (PyNum r) (PyNum t)
     = Ok (NdArray (map (fun S =>
                           spec_arithmetic_call Phi phi (sigma * S) S K r t)
                      Ss))) /\
  (forall S, S ∈ Ss -> 0 < spec_v (sigma * S) r t) /\
  (forall sigmas,
     length sigmas <> length Ss -> length sigmas <> 1%nat ->
     length Ss <> 1%nat ->
     bachelier (NdArray sigmas) (NdArray Ss) (PyNum K) (PyNum r) (PyNum t)
     = Raise ValueError).
Proof.
  intros Psigma Pt Pr PS. split; [|split].
  - exists (map (Rmult sigma) Ss). split; [reflexivity|].
    rewrite bachelier_spots by (rewrite length_map; reflexivity).
    do 2 f_equal. clear PS.
    induction Ss as [|S Ss' IH]; [reflexivity|].
    cbn [map zip_with]. rewrite IH, (bachelier_scalar_real Phi phi).
    reflexivity.
  - intros S HS. apply spec_v_positive; [|exact Pt|exact Pr].
    apply Rmult_lt_0_compat; [exact Psigma | apply PS; exact HS].
  - intros sigmas. apply bachelier_shapes.
Qed.

End RealSpots.

(** The arithmetic call over the spot prices 90 and 110. *)
Lemma arithmetic_call_over_spots_witness :
  (exists sigmas,
     py_mul (PyNum (3 / 10)%R) (NdArray [90%R; 110%R]) = Ok (NdArray sigmas) /\
     bachelier (special := real_special symmetric_cdf symmetric_pdf)
       (NdArray sigmas) (NdArray [90%R; 110%R]) (PyNum 105%R)
       (PyNum (1 / 100)%R) (PyNum (30 / 365)%R)
     = Ok (NdArray (map (fun S =>
                           spec_arithmetic_call symmetric_cdf symmetric_pdf
                             (3 / 10 * S) S 105 (1 / 100) (30 / 365))%R
                      [90%R; 110%R]))) /\
  (forall S, S ∈ [90%R; 110%R] ->
     (0 < spec_v (3 / 10 * S) (1 / 100) (30 / 365))%R) /\
  (forall sigmas,
     length sigmas <> length [90%R; 110%R] -> length sigmas <> 1%nat ->
     length [90%R; 110%R] <> 1%nat ->
     bachelier (special := real_special symmetric_cdf symmetric_pdf)
       (NdArray sigmas) (NdArray [90%R; 110%R]) (PyNum 105%R)
       (PyNum (1 / 100)%R) (PyNum (30 / 365)%R)
     = Raise ValueError).
Proof.
  apply (arithmetic_call_over_spots symmetric_cdf symmetric_pdf);
    try lra.
  intros S HS.
  apply elem_of_cons in HS as [-> | HS]; [lra|].
  apply elem_of_cons in HS as [-> | HS]; [lra|].
  apply elem_of_nil in HS. contradiction.
Defined.

(** ** The vega as a derivative *)

Lemma derivable_pt_lim_local (g h : real -> real) (x l delta : real) :
  (0 < delta)%R -> (forall y, (Rabs (y - x) < delta)%R -> g y = h y) ->
  derivable_pt_lim g x l -> derivable_pt_lim h x l.
Proof.
  intros Hdelta Heq Hg eps Heps.
  destruct (Hg eps Heps) as (d & Hd).
  assert (Hmin : (0 < Rmin d delta)%R)
    by (apply Rmin_pos; [apply cond_pos | exact Hdelta]).
  exists (mkposreal _ Hmin). intros k Hk Hlt. simpl in Hlt.
  rewrite <- !Heq.
  - apply Hd; [exact Hk|]. eapply Rlt_le_trans; [exact Hlt | apply Rmin_l].
  - replace (x - x)%R with 0%R by ring. rewrite Rabs_R0. exact Hdelta.
  - replace (x + k - x)%R with k by ring.
    eapply Rlt_le_trans; [exact Hlt | apply Rmin_r].
Qed.

Lemma normal_pdf_continuity : continuity normal_pdf.
Proof. unfold normal_pdf. reg. Qed.

(** The density is the derivative of the distribution function. *)
Lemma normal_cdf_derivative (x : real) :
  derivable_pt_lim normal_cdf x (normal_pdf x).
Proof.
  set (a := (- Rabs x - 2)%R). set (b := (Rabs x + 2)%R).
  pose proof (Rabs_pos x) as Hx. pose proof (Rle_abs x) as Hx1.
  pose proof (Rle_abs (- x)) as Hx2. rewrite Rabs_Ropp in Hx2.
  assert (h : (a <= b)%R) by (unfold a, b; lra).
  assert (C0 : forall y, (a <= y <= b)%R -> continuity_pt normal_pdf y)
    by (intros y _; apply normal_pdf_continuity).
  assert (Ha0 : Riemann_integrable normal_pdf a 0).
  { apply continuity_implies_RiemannInt; [unfold a; lra|].
    intros y _. apply normal_pdf_continuity. }
  apply (derivable_pt_lim_local
           (fun y => primitive h (FTC_P1 h C0) y + (1 / 2 - RiemannInt Ha0))%R
           normal_cdf x (normal_pdf x) 1); [lra| |].
  - intros y Hy. unfold primitive, normal_cdf.
    assert (Hy' : (- 1 < y - x < 1)%R) by (apply Rabs_def2 in Hy; lra).
    destruct (Rle_dec a y) as [Hay|Hay]; [|unfold a in Hay; lra].
    destruct (Rle_dec y b) as [Hyb|Hyb]; [|unfold b in Hyb; lra].
    rewrite <- (RiemannInt_P26 Ha0 (normal_integrable y) (FTC_P1 h C0 Hay Hyb)).
    ring.
  - replace (normal_pdf x) with (normal_pdf x + 0)%R by ring.
    apply (derivable_pt_lim_plus (primitive h (FTC_P1 h C0))
             (fun _ => (1 / 2 - RiemannInt Ha0)%R)).
    + apply RiemannInt_P27. unfold a, b. lra.
    + apply (derivable_pt_lim_const (1 / 2 - RiemannInt Ha0)%R).
Qed.

Lemma normal_pdf_gaussian (x : real) :
  normal_pdf x = (normal_pdf 0 * Rtrigo_def.exp (- (x * x) / 2))%R.
Proof.
  unfold normal_pdf.
  replace (- (0 * 0) / 2)%R with 0%R by (unfold Rdiv; ring).
  rewrite exp_0. ring.
Qed.

Section VegaDerivative.
Open Scope R_scope.
Variables Phi phi : real -> real.
Hypothesis Phi_derivative : forall x, derivable_pt_lim Phi x (phi x).
Hypothesis phi_gaussian :
  forall x, phi x = phi 0 * Rtrigo_def.exp (- (x * x) / 2).
Variables S K r t : real.
Hypothesis Pt : 0 < t.
Hypothesis PS : 0 < S.
Hypothesis PK : 0 < K.

#[local] Hint Extern 0 (Special real) =>
  exact (real_special Phi phi) : typeclass_instances.

Lemma phi_even (x : real) : phi (- x) = phi x.
Proof.
  rewrite (phi_gaussian (- x)), (phi_gaussian x).
  replace (- x * - x) with (x * x) by ring. reflexivity.
Qed.

(** [d1' = sqrt(t) - d1 / sigma], hence [d2' = - d1 / sigma]. *)
Lemma spec_d1_derivative sigma :
  0 < sigma ->
  derivable_pt_lim (fun s => spec_d1 s S K r t) sigma
    (R_sqrt.sqrt t - spec_d1 sigma S K r t / sigma).
Proof.
  intros Psigma.
  pose proof (sqrt_lt_R0 t Pt) as Hw. pose proof (sqrt_sqrt t (Rlt_le _ _ Pt)) as Hww.
  set (w := R_sqrt.sqrt t) in *.
  set (a := (ln (S / K) + r * t) / w).
  apply (derivable_pt_lim_local (fun s => a * (1 / s) + w / 2 * s)
           (fun s => spec_d1 s S K r t) sigma _ sigma Psigma).
  - intros y Hy. apply Rabs_def2 in Hy.
    unfold spec_d1, a. fold w. rewrite <- Hww. field. split; lra.
  - replace (w - spec_d1 sigma S K r t / sigma)
      with (a * ((0 * id sigma - 1 * 1) / Rsqr (id sigma)) + w / 2 * 1).
    + apply (derivable_pt_lim_plus (fun s => a * (1 / s)) (fun s => w / 2 * s)).
      * apply (derivable_pt_lim_scal (fun s => 1 / s) a sigma).
        apply (derivable_pt_lim_div (fun _ => 1) id sigma 0 1
                 (derivable_pt_lim_const 1 sigma) (derivable_pt_lim_id sigma)).
        unfold id. lra.
      * apply (derivable_pt_lim_scal id (w / 2) sigma 1
                 (derivable_pt_lim_id sigma)).
    + unfold spec_d1, a, Rsqr, id. fold w. rewrite <- Hww. field. split; lra.
Qed.

(** [S phi(d1) = K e^(-rt) phi(d2)] for a Gaussian density. *)
Lemma gaussian_identity sigma :
  0 < sigma ->
  K * Rtrigo_def.exp (- (r * t)) * phi (spec_d2 sigma S K r t)
  = S * phi (spec_d1 sigma S K r t).
Proof.
  intros Psigma.
  pose proof (sqrt_lt_R0 t Pt) as Hw. pose proof (sqrt_sqrt t (Rlt_le _ _ Pt)) as Hww.
  rewrite (phi_gaussian (spec_d2 sigma S K r t)),
    (phi_gaussian (spec_d1 sigma S K r t)).
  unfold spec_d2.
  set (d := spec_d1 sigma S K r t).
  assert (Hd : d * (sigma * R_sqrt.sqrt t)
               = ln (S / K) + (r + sigma ^ 2 / 2) * t).
  { unfold d, spec_d1. field. split; lra. }
  set (w := R_sqrt.sqrt t) in *.
  assert (HS : S = K * Rtrigo_def.exp (ln (S / K))).
  { rewrite exp_ln; [field; lra|]. apply Rdiv_lt_0_compat; assumption. }
  rewrite HS at 1.
  replace (K * Rtrigo_def.exp (- (r * t))
           * (phi 0 * Rtrigo_def.exp (- ((d - sigma * w) * (d - sigma * w)) / 2)))
    with (K * phi 0
          * (Rtrigo_def.exp (- (r * t))
             * Rtrigo_def.exp (- ((d - sigma * w) * (d - sigma * w)) / 2)))
    by ring.
  replace (K * Rtrigo_def.exp (ln (S / K))
           * (phi 0 * Rtrigo_def.exp (- (d * d) / 2)))
    with (K * phi 0
          * (Rtrigo_def.exp (ln (S / K)) * Rtrigo_def.exp (- (d * d) / 2)))
    by ring.
  rewrite <- !exp_plus. do 2 f_equal.
  assert (Hexp : - (r * t) + - ((d - sigma * w) * (d - sigma * w)) / 2
                 - (ln (S / K) + - (d * d) / 2)
                 = d * (sigma * w) - (ln (S / K) + (r + sigma ^ 2 / 2) * t)).
  { rewrite <- Hww. field. }
  rewrite Hd in Hexp. lra.
Qed.

(** The call and the put price of the formulas have the derivative
    [S phi(d1) sqrt(t)] in the volatility. *)
Lemma spec_prices_derivative sigma :
  0 < sigma ->
  derivable_pt_lim (fun s => spec_call Phi s S K r t) sigma
    (S * phi (spec_d1 sigma S K r t) * R_sqrt.sqrt t) /\
  derivable_pt_lim (fun s => spec_put Phi s S K r t) sigma
    (S * phi (spec_d1 sigma S K r t) * R_sqrt.sqrt t).
Proof.
  intros Psigma.
  pose proof (spec_d1_derivative sigma Psigma) as Hd1.
  pose proof (gaussian_identity sigma Psigma) as Hid.
  set (w := R_sqrt.sqrt t) in *.
  set (d1 := spec_d1 sigma S K r t) in *.
  set (E := Rtrigo_def.exp (- (r * t))) in *.
  assert (Hd2 : derivable_pt_lim (fun s => spec_d2 s S K r t) sigma
                  (w - d1 / sigma - w * 1)).
  { unfold spec_d2.
    apply (derivable_pt_lim_minus (fun s => spec_d1 s S K r t)
             (fun s => s * R_sqrt.sqrt t) sigma _ _ Hd1).
    replace (w * 1) with (1 * w + sigma * 0) by ring.
    apply (derivable_pt_lim_mult id (fun _ => w) sigma 1 0
             (derivable_pt_lim_id sigma) (derivable_pt_lim_const w sigma)). }
  assert (Hm1 : derivable_pt_lim (fun s => - spec_d1 s S K r t) sigma
                  (- (w - d1 / sigma)))
    by (apply (derivable_pt_lim_opp (fun s => spec_d1 s S K r t) sigma _ Hd1)).
  assert (Hm2 : derivable_pt_lim (fun s => - spec_d2 s S K r t) sigma
                  (- (w - d1 / sigma - w * 1)))
    by (apply (derivable_pt_lim_opp (fun s => spec_d2 s S K r t) sigma _ Hd2)).
  split.
  - replace (S * phi d1 * w)
      with (S * (phi d1 * (w - d1 / sigma))
            - K * E * (phi (spec_d2 sigma S K r t) * (w - d1 / sigma - w * 1))).
    + unfold spec_call. fold E.
      apply (derivable_pt_lim_minus
               (fun s => S * Phi (spec_d1 s S K r t))
               (fun s => K * E * Phi (spec_d2 s S K r t))).
      * apply (derivable_pt_lim_scal
                 (fun s => Phi (spec_d1 s S K r t)) S sigma).
        apply (derivable_pt_lim_comp (fun s => spec_d1 s S K r t) Phi sigma
                 _ _ Hd1 (Phi_derivative _)).
      * apply (derivable_pt_lim_scal
                 (fun s => Phi (spec_d2 s S K r t)) (K * E) sigma).
        apply (derivable_pt_lim_comp (fun s => spec_d2 s S K r t) Phi sigma
                 _ _ Hd2 (Phi_derivative _)).
    + replace (K * E * (phi (spec_d2 sigma S K r t) * (w - d1 / sigma - w * 1)))
        with (K * E * phi (spec_d2 sigma S K r t) * (w - d1 / sigma - w * 1))
        by ring.
      rewrite Hid. ring.
  - replace (S * phi d1 * w)
      with (K * E * (phi (- spec_d2 sigma S K r t)
                     * - (w - d1 / sigma - w * 1))
            - S * (phi (- d1) * - (w - d1 / sigma))).
    + unfold spec_put. fold E.
      apply (derivable_pt_lim_minus
               (fun s => K * E * Phi (- spec_d2 s S K r t))
               (fun s => S * Phi (- spec_d1 s S K r t))).
      * apply (derivable_pt_lim_scal
                 (fun s => Phi (- spec_d2 s S K r t)) (K * E) sigma).
        apply (derivable_pt_lim_comp (fun s => - spec_d2 s S K r t) Phi sigma
                 _ _ Hm2 (Phi_derivative _)).
      * apply (derivable_pt_lim_scal
                 (fun s => Phi (- spec_d1 s S K r t)) S sigma).
        apply (derivable_pt_lim_comp (fun s => - spec_d1 s S K r t) Phi sigma
                 _ _ Hm1 (Phi_derivative _)).
    + rewrite !phi_even.
      replace (K * E * (phi (spec_d2 sigma S K r t)
                        * - (w - d1 / sigma - w * 1)))
        with (K * E * phi (spec_d2 sigma S K r t)
              * - (w - d1 / sigma - w * 1)) by ring.
      rewrite Hid. ring.
Qed.

(** The sensitivity that the notebook hands to the solver is the exact
    derivative of the price it solves for: for a distribution function
    [Phi] with the Gaussian density [phi], and [sigma > 0], [t > 0],
    [S > 0], [K > 0], the value [S phi(d1) sqrt(t)] of [calculate_vega]
    is the derivative in the volatility of the call price that
    [call_price] returns and of the put price that [put_price]
    returns. *)
Theorem calculate_vega_is_derivative vS vK vr vt rest sigma :
  number vS = Some S -> number vK = Some K ->
  number vr = Some r -> number vt = Some t ->
  0 < sigma ->
  exists v,
    calculate_vega (NpNum sigma) (vS :: vK :: vr :: vt :: rest)
    = Ok (NpNum v) /\
    derivable_pt_lim
      (fun s => price_number (call_value (call_price (NpNum s) vS vK vr vt)))
      sigma v /\
    derivable_pt_lim
      (fun s => price_number (put_price (NpNum s) vS vK vr vt)) sigma v.
Proof.
  intros HS HK Hr Ht Psigma.
  destruct (spec_prices_derivative sigma Psigma) as [Hcall Hput].
  exists (S * phi (spec_d1 sigma S K r t) * R_sqrt.sqrt t).
  split; [|split].
  - assert (Gsigma : feqb sigma f0 = false) by (apply Reqb_false; simpl; lra).
    assert (GK : feqb K f0 = false) by (apply Reqb_false; simpl; lra).
    assert (G2 : feqb (f2 : real) f0 = false) by (apply Reqb_false; simpl; lra).
    rewrite (calculate_vega_scalars (NpNum sigma) vS vK vr vt sigma S K r t rest
               eq_refl HS HK Hr Ht Gsigma GK G2).
    rewrite (vega_scalar_real Phi phi) by assumption. reflexivity.
  - apply (derivable_pt_lim_local (fun s => spec_call Phi s S K r t) _
             sigma _ sigma Psigma); [|exact Hcall].
    intros y Hy. apply Rabs_def2 in Hy.
    rewrite (call_price_real Phi phi (NpNum y) vS vK vr vt y S K r t
               eq_refl HS HK Hr Ht) by lra.
    reflexivity.
  - apply (derivable_pt_lim_local (fun s => spec_put Phi s S K r t) _
             sigma _ sigma Psigma); [|exact Hput].
    intros y Hy. apply Rabs_def2 in Hy.
    rewrite (put_price_real Phi phi (NpNum y) vS vK vr vt y S K r t
               eq_refl HS HK Hr Ht) by lra.
    reflexivity.
Qed.

End VegaDerivative.

(** The vega of the example option under the standard normal law. *)
Lemma calculate_vega_is_derivative_witness :
  exists v,
    calculate_vega (special := real_special normal_cdf normal_pdf)
      (NpNum (3 / 10)%R)
      [PyNum 105%R; PyNum 105%R; PyNum (1 / 100)%R; PyNum (30 / 365)%R;
       PyNum (7 / 2)%R]
    = Ok (NpNum v) /\
    derivable_pt_lim
      (fun s =>
         price_number
           (call_value
              (call_price (special := real_special normal_cdf normal_pdf)
                 (NpNum s) (PyNum 105%R) (PyNum 105%R) (PyNum (1 / 100)%R)
                 (PyNum (30 / 365)%R))))
      (3 / 10)%R v /\
    derivable_pt_lim
      (fun s =>
         price_number
           (put_price (special := real_special normal_cdf normal_pdf)
              (NpNum s) (PyNum 105%R) (PyNum 105%R) (PyNum (1 / 100)%R)
              (PyNum (30 / 365)%R)))
      (3 / 10)%R v.
Proof.
  apply (calculate_vega_is_derivative normal_cdf normal_pdf
           normal_cdf_derivative normal_pdf_gaussian
           105%R 105%R (1 / 100)%R (30 / 365)%R);
    try reflexivity; lra.
Defined.

(** ** A pass of the implied-volatility solve of a put *)

Section ScalarPass.
Context {F : Type} {arith : Arith F} {A : Type}.
Variables f fprime : value F -> A -> result (value F).
Variable args : A.
Variable debug : bool.


End ScalarPass.

Section RealPutSolve.
Open Scope R_scope.
Variables Phi phi : real -> real.

#[local] Hint Extern 0 (Special real) =>
  exact (real_special Phi phi) : typeclass_instances.

#[local] Arguments put_price : simpl never.


End RealPutSolve.


(** ** Divisions by zero *)

Section ZeroDivisions.
Context {F : Type} {arith : Arith F} {special : Special F} {step : Step F}.

(** A Python number that is zero for the volatility makes every
    function of the log-normal model raise [ZeroDivisionError], at
    [1. / sigma], whatever the other arguments are. *)
Theorem zero_volatility_raises (sigma : F) (S K r t price : value F)
  (rest : list (value F)) :
  feqb sigma f0 = true ->
  call_price (PyNum sigma) S K r t = Raise ZeroDivisionError /\
  put_price (PyNum sigma) S K r t = Raise ZeroDivisionError /\
  call_objective_function (PyNum sigma) (S :: K :: r :: t :: price :: rest)
  = Raise ZeroDivisionError /\
  put_objective_function (PyNum sigma) (S :: K :: r :: t :: price :: rest)
  = Raise ZeroDivisionError /\
  calculate_vega (PyNum sigma) (S :: K :: r :: t :: rest)
  = Raise ZeroDivisionError.
Proof.
  intros Hzero.
  assert (Hd1 : d1_of (PyNum sigma) S K r t = Raise ZeroDivisionError).
  { unfold d1_of. simpl. rewrite Hzero. reflexivity. }
  assert (Hcall : call_price (PyNum sigma) S K r t = Raise ZeroDivisionError)
    by (unfold call_price; rewrite Hd1; reflexivity).
  assert (Hput : put_price (PyNum sigma) S K r t = Raise ZeroDivisionError)
    by (unfold put_price; rewrite Hd1; reflexivity).
  repeat split; try assumption.
  - unfold call_objective_function. cbn [arg lookup list_lookup].
    simpl. rewrite Hcall. reflexivity.
  - unfold put_objective_function. simpl. rewrite Hput. reflexivity.
  - unfold calculate_vega. simpl. rewrite Hd1. reflexivity.
Qed.


End ZeroDivisions.

Section DefaultGuess.
Context {F : Type} {arith : Arith F} {A : Type}.
Variables f fprime : value F -> A -> result (value F).
Variable max_iter : Z.
Variable tol : F.
Variable args : A.
Variable debug : bool.

(** From a Python number that is zero, as the default [R = 0] is, a
    solve whose objective function and derivative answer by Python
    numbers never gets through its first pass: it raises
    [ZeroDivisionError], at the Newton step when the derivative is zero
    and at the relative change [(R - old_R) / old_R] when it is
    positive, and [TypeError], at [R[ind]], when it is negative. *)
Theorem zero_guess_raises (x fv dv : F) :
  feqb x f0 = true ->
  f (PyNum x) args = Ok (PyNum fv) -> fprime (PyNum x) args = Ok (PyNum dv) ->
  ge_tol (PyNum f1) tol = Ok true -> (1 < max_iter)%Z ->
  newtons_method f fprime max_iter tol args debug (PyNum x)
  = Some (Raise (if feqb dv f0 then ZeroDivisionError
                 else if fleb dv f0 then TypeError
                 else ZeroDivisionError)).
Proof.
  intros Hx Hf Hfp Hge Hcap.
  unfold newtons_method. cbn [while_loop initial epsilon].
  rewrite Hge.
  destruct (Z.geb_spec (count (increment (initial (PyNum x)))) max_iter)
    as [Hc|_]; [simpl in Hc; lia|].
  unfold iteration. simpl. rewrite Hf, Hfp. simpl.
  destruct (feqb dv f0); [reflexivity|]. simpl.
  destruct (fleb dv f0); simpl; [reflexivity|].
  unfold convergence_metric. simpl. rewrite Hx. reflexivity.
Qed.

End DefaultGuess.

(** The log-normal functions at the volatility 0. *)
Lemma zero_volatility_raises_witness :
  call_price (special := real_special symmetric_cdf symmetric_pdf)
    (PyNum 0%R) (PyNum 105%R) (PyNum 105%R) (PyNum (1 / 100)%R)
    (PyNum (30 / 365)%R) = Raise ZeroDivisionError /\
  put_price (special := real_special symmetric_cdf symmetric_pdf)
    (PyNum 0%R) (PyNum 105%R) (PyNum 105%R) (PyNum (1 / 100)%R)
    (PyNum (30 / 365)%R) = Raise ZeroDivisionError /\
  call_objective_function
    (special := real_special symmetric_cdf symmetric_pdf) (PyNum 0%R)
    [PyNum 105%R; PyNum 105%R; PyNum (1 / 100)%R; PyNum (30 / 365)%R;
     PyNum (7 / 2)%R] = Raise ZeroDivisionError /\
  put_objective_function
    (special := real_special symmetric_cdf symmetric_pdf) (PyNum 0%R)
    [PyNum 105%R; PyNum 105%R; PyNum (1 / 100)%R; PyNum (30 / 365)%R;
     PyNum (7 / 2)%R] = Raise ZeroDivisionError /\
  calculate_vega
    (special := real_special symmetric_cdf symmetric_pdf) (PyNum 0%R)
    [PyNum 105%R; PyNum 105%R; PyNum (1 / 100)%R; PyNum (30 / 365)%R]
  = Raise ZeroDivisionError.
Proof.
  apply (zero_volatility_raises
           (special := real_special symmetric_cdf symmetric_pdf)
           0%R (PyNum 105%R) (PyNum 105%R) (PyNum (1 / 100)%R)
           (PyNum (30 / 365)%R) (PyNum (7 / 2)%R) []).
  simpl. unfold Reqb. destruct (Req_dec_T 0 0); [reflexivity|lra].
Defined.


(** The parabola [R * R - 2] from the default guess [R = 0] in
    binary64: the residual is [-2.0], the slope [0.0]. *)
Lemma zero_guess_raises_witness :
  newtons_method parabola parabola_slope 1000 default_tol [] false
    (PyNum 0%float)
  = Some (Raise ZeroDivisionError).
Proof.
  exact (zero_guess_raises parabola parabola_slope 1000 default_tol [] false
           0%float (-2)%float 0%float eq_refl eq_refl eq_refl eq_refl
           eq_refl).
Defined.
